(** * musttag: struct-tag analysis of values passed to (un)marshalling calls

    A shallow embedding of [src/musttag.go] and the properties of its four
    parts: [tagAndExpr] (the call matcher), [structAndPos] (the type
    resolver), [checkStruct] (the tag verifier) and the reporting callback of
    [run] with its [reported] set.

    Conventions of the embedding:
    - [token.Pos] is an integer, so positions are [Z];
    - Go strings are byte strings, so they are [string] (lists of [ascii]);
    - the part of [go/types] the analyser looks at is the inductive [type];
      a named type ([types.Named]) refers to its declaration, whose
      underlying type is read from a universe [underlying_of], because a
      declared type may mention itself;
    - a Go call either returns, panics (index out of range, nil
      dereference) or exhausts the goroutine stack; [outcome] has these three
      results, and the recursion of [checkStruct] is bounded by the number of
      nested activations it may use. *)

From Stdlib Require Import ZArith String Ascii List Lia.
From stdpp Require Import base option list gmap strings.

Local Open Scope Z_scope.
Local Open Scope string_scope.
Local Open Scope list_scope.

(** ** Results of Go calls *)

Inductive outcome (A : Type) : Type :=
| Ret (a : A)        (* the call returns [a] *)
| Panic              (* run-time panic *)
| Overflow.          (* the bound on nested activations is exceeded *)

Arguments Ret {A} a.
Arguments Panic {A}.
Arguments Overflow {A}.

#[global] Instance outcome_ret : MRet outcome := fun _ a => Ret a.
#[global] Instance outcome_bind : MBind outcome := fun _ _ k m =>
  match m with
  | Ret a => k a
  | Panic => Panic
  | Overflow => Overflow
  end.

Definition returns {A} (m : outcome A) : Prop := exists a, m = Ret a.

(** ** Data: positions, types, fields, expressions *)

Definition Pos := Z.

(** [types.TypeName]: the object a named type was declared with. *)
Record TypeName := mkTypeName { obj_name : string; obj_pos : Pos }.

(** [types.Type], with the struct's fields ([types.Var]) carrying the tag
    that [Struct.Tag(i)] returns for them and, as [exported], what
    [Var.Exported()] returns for their name. *)
Inductive type : Type :=
| Basic (name : string)
| Pointer (elem : type)
| Named (obj : TypeName)
| Struct (fields : list Var)
| Slice (elem : type)
| Map (key elem : type)
| Interface
with Var : Type :=
| mkVar (name : string) (exported : bool) (tag : string) (typ : type).

Definition Struct_ := list Var.

Definition Name (f : Var) : string := let 'mkVar n _ _ _ := f in n.
Definition Exported (f : Var) : bool := let 'mkVar _ e _ _ := f in e.
Definition Tag (f : Var) : string := let 'mkVar _ _ t _ := f in t.
Definition Type_ (f : Var) : type := let 'mkVar _ _ _ t := f in t.

(** ** Strings: [strings.Split] at a one-byte separator, [strings.HasPrefix] *)

(** [Split s sep] for a separator of one byte: the pieces of [s] between
    the occurrences of [sep]; n occurrences give n+1 pieces, empty ones
    included. *)
Fixpoint Split (s : string) (sep : ascii) : list string :=
  match s with
  | EmptyString => [EmptyString]
  | String c rest =>
      if Ascii.eqb c sep then EmptyString :: Split rest sep
      else match Split rest sep with
           | [] => [String c EmptyString]
           | piece :: pieces => String c piece :: pieces
           end
  end.

Fixpoint HasPrefix (s prefix : string) : bool :=
  match prefix, s with
  | EmptyString, _ => true
  | String _ _, EmptyString => false
  | String p prefix', String c s' => Ascii.eqb c p && HasPrefix s' prefix'
  end.

Definition space : ascii := Ascii.ascii_of_nat 32.

(** The inner loop of [checkStruct]: [tagged] starts false and is set by
    every piece of the tag that starts with [tag + ":"]. *)
Definition tagged (fieldTag tag : string) : bool :=
  fold_left (fun tagged t => if HasPrefix t (String.append tag ":") then true else tagged)
            (Split fieldTag space) false.

(** ** The tag verifier *)

Section Verifier.

(** [Named.Underlying()]: the underlying type recorded for a declaration. *)
Variable underlying_of : TypeName -> type.

Definition Underlying (t : type) : type :=
  match t with
  | Named obj => underlying_of obj
  | _ => t
  end.

(** The type itself, or [ptr.Elem()] when it is a [types.Pointer]. *)
Definition deref (t : type) : type :=
  match t with
  | Pointer elem => elem
  | _ => t
  end.

(** The loop of [checkStruct] from field [i] on, with the recursive call
    as [self]. The position behind the pointer [pos] is threaded through:
    the result is the returned [ok] and the position left in [*pos]. *)
Fixpoint checkFields (self : Struct_ -> string -> Pos -> outcome (bool * Pos))
    (fields : Struct_) (tag : string) (pos : Pos) : outcome (bool * Pos) :=
  match fields with
  | [] => Ret (true, pos)
  | f :: rest =>
      if negb (Exported f) then checkFields self rest tag pos
      else if negb (tagged (Tag f) tag) then Ret (false, pos)
      else
        let t := deref (Type_ f) in
        match Underlying t with
        | Struct nested =>
            '(ok, pos') ← self nested tag pos;
            if (ok : bool) then checkFields self rest tag pos'
            else Ret (false, match t with
                             | Named named => obj_pos named
                             | _ => pos'
                             end)
        | _ => checkFields self rest tag pos
        end
  end.

(** [checkStruct], with at most [depth] activations nested in one
    another. *)
Fixpoint checkStruct (depth : nat) (s : Struct_) (tag : string) (pos : Pos)
    : outcome (bool * Pos) :=
  match depth with
  | O => Overflow
  | S depth' => checkFields (checkStruct depth') s tag pos
  end.

End Verifier.

Arguments Underlying underlying_of !t /.
Arguments deref !t /.

(** ** Expressions and the facts of the type checker *)

(** [ast.Expr], as far as the analyser tells its shapes apart. An
    identifier carries [Obj], which is nil ([None]) when the parser did not
    resolve it, and otherwise the position [Obj.Pos()] of its declaration. *)
Inductive Expr : Type :=
| Ident (namePos : Pos) (name : string) (obj : option Pos)
| CompositeLit (pos : Pos)
| UnaryExpr (op : string) (x : Expr)
| SelectorExpr (x : Expr) (sel : string)
| OtherExpr (pos : Pos).

Record CallExpr := mkCall { Fun : Expr; Args : list Expr }.

(** What the analyser reads from [analysis.Pass]: the static type of an
    expression ([None] is the nil type), the full name of the static callee
    of a call ([None] when [typeutil.StaticCallee] is nil), the underlying
    type of a declared type. *)
Record Pass := mkPass {
  TypeOf : Expr -> option type;
  StaticCallee : CallExpr -> option string;
  declared : TypeName -> type
}.

(** ** The call matcher *)

Definition jsonTag : string := "json".

Definition json_Marshal : string := "encoding/json.Marshal".
Definition json_MarshalIndent : string := "encoding/json.MarshalIndent".
Definition json_Encoder_Encode : string := "(" +:+ "*encoding/json.Encoder).Encode".
Definition json_Decoder_Decode : string := "(" +:+ "*encoding/json.Decoder).Decode".
Definition json_Unmarshal : string := "encoding/json.Unmarshal".

(** [call.Args[i]]: indexing a slice panics out of range. *)
Definition index {A} (l : list A) (i : nat) : outcome A :=
  match nth_error l i with
  | Some a => Ret a
  | None => Panic
  end.

(** [tagAndExpr]; [None] stands for the result [("", nil, false)]. *)
Definition tagAndExpr (pass : Pass) (call : CallExpr) : outcome (option (string * Expr)) :=
  match StaticCallee pass call with
  | None => Ret None
  | Some fullName =>
      if (String.eqb fullName json_Marshal
          || String.eqb fullName json_MarshalIndent
          || String.eqb fullName json_Encoder_Encode
          || String.eqb fullName json_Decoder_Decode)%bool
      then arg ← index (Args call) 0; Ret (Some (jsonTag, arg))
      else if String.eqb fullName json_Unmarshal
      then arg ← index (Args call) 1; Ret (Some (jsonTag, arg))
      else Ret None
  end.

(** ** The type resolver *)

(** The expression itself, or [unary.X] when it is an [ast.UnaryExpr]. *)
Definition operand (expr : Expr) : Expr :=
  match expr with
  | UnaryExpr _ x => x
  | _ => expr
  end.

(** [structAndPos]; [None] stands for the result [(nil, 0, false)]. *)
Definition structAndPos (pass : Pass) (expr : Expr) : outcome (option (Struct_ * Pos)) :=
  let t := TypeOf pass expr in
  let t := match t with
           | Some (Pointer elem) => Some elem
           | _ => t
           end in
  match t with
  | Some (Named obj) =>
      match Underlying (declared pass) (Named obj) with
      | Struct s => Ret (Some (s, obj_pos obj))
      | _ => Ret None
      end
  | Some (Struct s) =>
      match operand expr with
      | Ident _ _ (Some objPos) => Ret (Some (s, objPos))
      | Ident _ _ None => Panic
      | CompositeLit litPos => Ret (Some (s, litPos))
      | _ => Ret None
      end
  | _ => Ret None
  end.

(** ** The run over the call expressions of a package *)

(** The key of [reported], and the arguments of one [pass.Reportf]. *)
Definition report : Type := Pos * string.

Record State := mkState {
  reported : gset report;
  diagnostics : list report     (* the calls of [pass.Reportf], in order *)
}.

Definition start : State := {| reported := ∅; diagnostics := [] |}.

(** The function [run] hands to [inspect.Preorder], applied to one call. *)
Definition visit (pass : Pass) (depth : nat) (st : State) (call : CallExpr)
    : outcome State :=
  m ← tagAndExpr pass call;
  match m with
  | None => Ret st
  | Some (tag, expr) =>
      r ← structAndPos pass expr;
      match r with
      | None => Ret st
      | Some (s, pos) =>
          '(ok, pos) ← checkStruct (declared pass) depth s tag pos;
          if (ok : bool) then Ret st
          else
            let r : report := (pos, tag) in
            if decide (r ∈ reported st) then Ret st
            else Ret {| reported := {[ r ]} ∪ reported st;
                        diagnostics := diagnostics st ++ [r] |}
      end
  end.

(** [inspect.Preorder] over the calls of the package, in its order. *)
Fixpoint preorder (pass : Pass) (depth : nat) (st : State) (calls : list CallExpr)
    : outcome State :=
  match calls with
  | [] => Ret st
  | call :: calls' => st' ← visit pass depth st call; preorder pass depth st' calls'
  end.

Definition run (pass : Pass) (depth : nat) (calls : list CallExpr) : outcome State :=
  preorder pass depth start calls.

(** ** Notions the properties are stated with *)

Section Notions.

Variable underlying_of : TypeName -> type.
Variable tag : string.

(** [inner] is the record that [checkStruct] descends into from a field of
    [outer]: the field is exported and tagged, and its type, with one
    pointer removed, has the struct [inner] as underlying type. *)
Definition nests (inner outer : Struct_) : Prop :=
  exists f, f ∈ outer /\ Exported f = true /\ tagged (Tag f) tag = true /\
            Underlying underlying_of (deref (Type_ f)) = Struct inner.

(** The records reachable from [outer] through tagged exported fields. *)
Definition reaches (outer inner : Struct_) : Prop :=
  rtc (fun a b => nests b a) outer inner.

(** Every exported field of the record itself carries the key. *)
Definition fully_tagged (s : Struct_) : Prop :=
  forall f, f ∈ s -> Exported f = true -> tagged (Tag f) tag = true.

(** Compliance as the specification words it: the record and every record
    reachable from it through tagged fields are fully tagged. *)
Definition Compliant (s : Struct_) : Prop :=
  forall s', reaches s s' -> fully_tagged s'.

(** Compliance by a finite derivation: the record is fully tagged, and so
    are, in turn, the records it nests. *)
Inductive verified : Struct_ -> Prop :=
| verified_intro s :
    fully_tagged s ->
    (forall nested, nests nested s -> verified nested) ->
    verified s.

(** A field that lets the loop of [checkStruct] go on to the next one. *)
Definition field_verified (f : Var) : Prop :=
  Exported f = true ->
  tagged (Tag f) tag = true /\
  forall nested, Underlying underlying_of (deref (Type_ f)) = Struct nested ->
                 verified nested.

(** The failing path of a record: the types (one pointer removed) of the
    fields through which the verification fails, outermost first, down to
    the record that has an untagged exported field after verified ones. *)
Inductive fails_through : Struct_ -> list type -> Prop :=
| fails_untagged pre f post :
    Forall field_verified pre ->
    Exported f = true ->
    tagged (Tag f) tag = false ->
    fails_through (pre ++ f :: post) []
| fails_nested pre f post nested path :
    Forall field_verified pre ->
    Exported f = true ->
    tagged (Tag f) tag = true ->
    Underlying underlying_of (deref (Type_ f)) = Struct nested ->
    fails_through nested path ->
    fails_through (pre ++ f :: post) (deref (Type_ f) :: path).

(** From [d] nested activations on, the call returns at every position. *)
Definition returns_from (d : nat) (s : Struct_) : Prop :=
  forall d', (d <= d')%nat -> forall pos,
    returns (checkStruct underlying_of d' s tag pos).

(** From [d] nested activations on, the call returns true and leaves the
    position as it was. *)
Definition passes_from (d : nat) (s : Struct_) : Prop :=
  forall d', (d <= d')%nat -> forall pos,
    checkStruct underlying_of d' s tag pos = Ret (true, pos).

End Notions.

(** A call that [tagAndExpr] and [structAndPos] resolve to the record [s]
    with key [tag], to be reported at [pos] unless the verifier moves it. *)
Definition resolves_to (pass : Pass) (tag : string) (s : Struct_) (pos : Pos)
    (call : CallExpr) : Prop :=
  exists expr, tagAndExpr pass call = Ret (Some (tag, expr)) /\
               structAndPos pass expr = Ret (Some (s, pos)).

(** What [run] keeps true of its state: the diagnostics emitted are the
    members of [reported], each emitted once. *)
Definition reported_once (st : State) : Prop :=
  NoDup (diagnostics st) /\ forall r, r ∈ reported st <-> r ∈ diagnostics st.

(** The named types of a failing path, outermost first. *)
Definition named_on (path : list type) : list TypeName :=
  omap (fun t => match t with Named obj => Some obj | _ => None end) path.

(** The position [checkStruct] leaves after failing along [path]: every
    level whose field type is named overwrites what deeper levels wrote. *)
Definition position_after (path : list type) (pos : Pos) : Pos :=
  match named_on path with
  | outermost :: _ => obj_pos outermost
  | [] => pos
  end.

(** The position the specification asks for: the declaration of the deepest
    named record on the failing path. *)
Definition deepest_position (path : list type) (pos : Pos) : Pos :=
  match last (named_on path) with
  | Some deepest => obj_pos deepest
  | None => pos
  end.

(** The specification's tokens: the annotation split around white space
    (space, tab, line feed, vertical tab, form feed, carriage return). *)
Definition isSpace (c : ascii) : bool :=
  let n := nat_of_ascii c in
  (Nat.eqb n 32 || (Nat.leb 9 n && Nat.leb n 13))%bool.

Fixpoint SplitAt (sep : ascii -> bool) (s : string) : list string :=
  match s with
  | EmptyString => [EmptyString]
  | String c rest =>
      if sep c then EmptyString :: SplitAt sep rest
      else match SplitAt sep rest with
           | [] => [String c EmptyString]
           | piece :: pieces => String c piece :: pieces
           end
  end.

Definition Fields (s : string) : list string :=
  filter (fun piece => piece <> EmptyString) (SplitAt isSpace s).

Definition tagged_by_whitespace (fieldTag tag : string) : bool :=
  existsb (fun token => HasPrefix token (String.append tag ":")) (Fields fieldTag).

(** The serialization rules [tagAndExpr] switches over: the callee's full
    name, the key, the index of the argument to check. *)
Definition rules : list (string * (string * nat)) :=
  [ (json_Marshal, (jsonTag, 0%nat));
    (json_MarshalIndent, (jsonTag, 0%nat));
    (json_Encoder_Encode, (jsonTag, 0%nat));
    (json_Decoder_Decode, (jsonTag, 0%nat));
    (json_Unmarshal, (jsonTag, 1%nat)) ].

Definition rule (callee : string) : option (string * nat) :=
  snd <$> List.find (fun r => String.eqb callee (fst r)) rules.

(** The part of the callback of [run] that does not look at [reported]:
    the report a call asks for, if any. *)
Definition call_report (pass : Pass) (depth : nat) (call : CallExpr)
    : outcome (option report) :=
  m ← tagAndExpr pass call;
  match m with
  | None => Ret None
  | Some (tag, expr) =>
      r ← structAndPos pass expr;
      match r with
      | None => Ret None
      | Some (s, pos) =>
          '(ok, pos) ← checkStruct (declared pass) depth s tag pos;
          if (ok : bool) then Ret None else Ret (Some (pos, tag))
      end
  end.

(** The end of the callback: the report is emitted unless [reported] has
    it. *)
Definition emit (st : State) (r : report) : State :=
  if decide (r ∈ reported st) then st
  else {| reported := {[ r ]} ∪ reported st;
          diagnostics := diagnostics st ++ [r] |}.

(** ** Programs the properties are tried on *)

Definition quote : string := String (ascii_of_nat 34) EmptyString.

(** The annotation [key:"value"]. *)
Definition kv (key value : string) : string :=
  key +:+ ":" +:+ quote +:+ value +:+ quote.

Definition int : type := Basic "int".

(** [type User struct { Name string `json:"name"`; age int }] *)
Definition UserObj : TypeName := mkTypeName "User" 10.
Definition User : Struct_ :=
  [ mkVar "Name" true (kv "json" "name") (Basic "string");
    mkVar "age" false "" int ].

(** [type Node struct { Value int `json:"value"`; Next *Node `json:"next"` }] *)
Definition NodeObj : TypeName := mkTypeName "Node" 100.
Definition Node : Struct_ :=
  [ mkVar "Value" true (kv "json" "value") int;
    mkVar "Next" true (kv "json" "next") (Pointer (Named NodeObj)) ].

(** [type Tree struct { Left *Tree `json:"left"`; Right *Tree `json:"right"` }] *)
Definition TreeObj : TypeName := mkTypeName "Tree" 200.
Definition Tree : Struct_ :=
  [ mkVar "Left" true (kv "json" "left") (Pointer (Named TreeObj));
    mkVar "Right" true (kv "json" "right") (Pointer (Named TreeObj)) ].

(** [type Chain struct { Next *Chain `json:"next"`; Label string }] *)
Definition ChainObj : TypeName := mkTypeName "Chain" 300.
Definition Chain : Struct_ :=
  [ mkVar "Next" true (kv "json" "next") (Pointer (Named ChainObj));
    mkVar "Label" true "" (Basic "string") ].

(** [type Inner struct { Value int }]
    [type Mid struct { In Inner `json:"in"` }]
    [type Outer struct { Mid Mid `json:"mid"` }] *)
Definition InnerObj : TypeName := mkTypeName "Inner" 400.
Definition Inner : Struct_ := [ mkVar "Value" true "" int ].
Definition MidObj : TypeName := mkTypeName "Mid" 500.
Definition Mid : Struct_ := [ mkVar "In" true (kv "json" "in") (Named InnerObj) ].
Definition OuterObj : TypeName := mkTypeName "Outer" 600.
Definition Outer : Struct_ := [ mkVar "Mid" true (kv "json" "mid") (Named MidObj) ].

(** [type Wrapper struct { Box struct { In Inner `json:"in"` } `json:"box"` }] *)
Definition WrapperObj : TypeName := mkTypeName "Wrapper" 700.
Definition Box : Struct_ := [ mkVar "In" true (kv "json" "in") (Named InnerObj) ].
Definition Wrapper : Struct_ := [ mkVar "Box" true (kv "json" "box") (Struct Box) ].

(** [type Part struct { Raw struct { X int } `json:"raw"` }]
    [type Shell struct { Part Part `json:"part"` }] *)
Definition Raw : Struct_ := [ mkVar "X" true "" int ].
Definition PartObj : TypeName := mkTypeName "Part" 1200.
Definition Part : Struct_ := [ mkVar "Raw" true (kv "json" "raw") (Struct Raw) ].
Definition ShellObj : TypeName := mkTypeName "Shell" 1300.
Definition Shell : Struct_ := [ mkVar "Part" true (kv "json" "part") (Named PartObj) ].

(** [type Halt struct { Label string; Next *Halt `json:"next"` }] *)
Definition HaltObj : TypeName := mkTypeName "Halt" 1400.
Definition Halt : Struct_ :=
  [ mkVar "Label" true "" (Basic "string");
    mkVar "Next" true (kv "json" "next") (Pointer (Named HaltObj)) ].

(** [type Point struct { X int `json:"x"`; Y int }] *)
Definition PointObj : TypeName := mkTypeName "Point" 800.
Definition Point : Struct_ :=
  [ mkVar "X" true (kv "json" "x") int; mkVar "Y" true "" int ].

(** The declarations above, by name. *)
Definition universe (obj : TypeName) : type :=
  let declared_as name := String.eqb (obj_name obj) name in
  if declared_as "User" then Struct User
  else if declared_as "Node" then Struct Node
  else if declared_as "Tree" then Struct Tree
  else if declared_as "Chain" then Struct Chain
  else if declared_as "Inner" then Struct Inner
  else if declared_as "Mid" then Struct Mid
  else if declared_as "Outer" then Struct Outer
  else if declared_as "Wrapper" then Struct Wrapper
  else if declared_as "Point" then Struct Point
  else if declared_as "Part" then Struct Part
  else if declared_as "Shell" then Struct Shell
  else if declared_as "Halt" then Struct Halt
  else int.

(** An annotation whose two pairs are separated by a tab. *)
Definition tab_separated : string :=
  kv "yaml" "name" +:+ String (ascii_of_nat 9) EmptyString +:+ kv "json" "name".

(** Expressions of a package: the variables [user], [cfg] (of type
    [Wrapper]), [point], [mid] and [outer], the selection [cfg.Box], the
    package [json]; its composite literals are of type [struct { X int }]. *)
Definition user : Expr := Ident 1000 "user" (Some 900).
Definition cfg : Expr := Ident 1010 "cfg" (Some 910).
Definition point : Expr := Ident 1020 "point" (Some 920).
Definition cfg_Box : Expr := SelectorExpr cfg "Box".
Definition data : Expr := Ident 1030 "data" (Some 930).
Definition mid : Expr := Ident 1040 "mid" (Some 940).
Definition outer : Expr := Ident 1050 "outer" (Some 950).

Definition json_ (fn : string) (args : list Expr) : CallExpr :=
  mkCall (SelectorExpr (Ident 1100 "json" None) fn) args.

Definition typeOf (e : Expr) : option type :=
  match e with
  | Ident _ name _ =>
      if String.eqb name "user" then Some (Named UserObj)
      else if String.eqb name "cfg" then Some (Named WrapperObj)
      else if String.eqb name "point" then Some (Named PointObj)
      else if String.eqb name "data" then Some (Slice (Basic "byte"))
      else if String.eqb name "mid" then Some (Named MidObj)
      else if String.eqb name "outer" then Some (Named OuterObj)
      else None
  | CompositeLit _ => Some (Struct Raw)
  | UnaryExpr _ (Ident _ name _) =>
      if String.eqb name "user" then Some (Pointer (Named UserObj))
      else if String.eqb name "point" then Some (Pointer (Named PointObj))
      else None
  | SelectorExpr (Ident _ name _) sel =>
      if (String.eqb name "cfg" && String.eqb sel "Box")%bool then Some (Struct Box)
      else None
  | UnaryExpr _ (SelectorExpr (Ident _ name _) sel) =>
      if (String.eqb name "cfg" && String.eqb sel "Box")%bool
      then Some (Pointer (Struct Box))
      else None
  | _ => None
  end.

Definition staticCallee (call : CallExpr) : option string :=
  match Fun call with
  | SelectorExpr (Ident _ pkg _) fn =>
      if String.eqb pkg "json" then Some ("encoding/json." +:+ fn) else None
  | _ => None
  end.

Definition package : Pass :=
  {| TypeOf := typeOf; StaticCallee := staticCallee; declared := universe |}.

(** * Properties *)

(** ** The functions on small inputs *)

Example Split_two_pieces : Split "a b" space = ["a"; "b"].
Proof. reflexivity. Qed.

Example Split_no_separator : Split "" space = [""].
Proof. reflexivity. Qed.

Example Split_keeps_empty_pieces : Split " a  b" space = [""; "a"; ""; "b"].
Proof. reflexivity. Qed.

Example tagged_by_second_pair :
  tagged (kv "yaml" "n" +:+ " " +:+ kv "json" "n") "json" = true.
Proof. reflexivity. Qed.

Example tagged_needs_the_colon : tagged (kv "jsonx" "n") "json" = false.
Proof. reflexivity. Qed.

Example checkStruct_User : checkStruct universe 1 User jsonTag 10 = Ret (true, 10).
Proof. reflexivity. Qed.

Example checkStruct_Point : checkStruct universe 1 Point jsonTag 800 = Ret (false, 800).
Proof. reflexivity. Qed.

Example checkStruct_Mid :
  checkStruct universe 2 Mid jsonTag (obj_pos MidObj) = Ret (false, obj_pos InnerObj).
Proof. reflexivity. Qed.

Example checkStruct_Mid_too_shallow :
  checkStruct universe 1 Mid jsonTag (obj_pos MidObj) = Overflow.
Proof. reflexivity. Qed.

Example structAndPos_variable :
  structAndPos package user = Ret (Some (User, obj_pos UserObj)).
Proof. reflexivity. Qed.

Example structAndPos_bytes : structAndPos package data = Ret None.
Proof. reflexivity. Qed.

Example run_compliant :
  run package 1 [json_ "Marshal" [user]; json_ "Unmarshal" [data; UnaryExpr "&" user]]
  = Ret start.
Proof. reflexivity. Qed.

Example run_other_callee : run package 1 [json_ "Valid" [data]] = Ret start.
Proof. reflexivity. Qed.

(** ** The loop of [checkStruct], one field at a time *)

Section FieldSteps.

Variable underlying_of : TypeName -> type.
Variable self : Struct_ -> string -> Pos -> outcome (bool * Pos).
Variable tag : string.

Lemma checkFields_unexported f rest pos :
  Exported f = false ->
  checkFields underlying_of self (f :: rest) tag pos
  = checkFields underlying_of self rest tag pos.
Proof. intros E. cbn [checkFields]. now rewrite E. Qed.

Lemma checkFields_untagged f rest pos :
  Exported f = true -> tagged (Tag f) tag = false ->
  checkFields underlying_of self (f :: rest) tag pos = Ret (false, pos).
Proof. intros E T. cbn [checkFields]. now rewrite E, T. Qed.

Lemma checkFields_plain f rest pos :
  Exported f = true -> tagged (Tag f) tag = true ->
  (forall nested, Underlying underlying_of (deref (Type_ f)) <> Struct nested) ->
  checkFields underlying_of self (f :: rest) tag pos
  = checkFields underlying_of self rest tag pos.
Proof.
  intros E T N. cbn [checkFields]. rewrite E, T. cbn [negb].
  destruct (Underlying underlying_of (deref (Type_ f))) eqn:U; try reflexivity.
  now destruct (N fields).
Qed.

Lemma checkFields_nested f rest pos nested :
  Exported f = true -> tagged (Tag f) tag = true ->
  Underlying underlying_of (deref (Type_ f)) = Struct nested ->
  checkFields underlying_of self (f :: rest) tag pos
  = match self nested tag pos with
    | Ret (true, pos') => checkFields underlying_of self rest tag pos'
    | Ret (false, pos') => Ret (false, position_after [deref (Type_ f)] pos')
    | Panic => Panic
    | Overflow => Overflow
    end.
Proof.
  intros E T U. cbn [checkFields]. rewrite E, T, U. cbn [negb].
  destruct (self nested tag pos) as [[[] pos']| |]; cbn; try reflexivity.
  unfold position_after. now destruct (deref (Type_ f)).
Qed.

(** The three ways a field is looked at. *)
Lemma field_cases (f : Var) :
  Exported f = false \/
  (Exported f = true /\ tagged (Tag f) tag = false) \/
  (Exported f = true /\ tagged (Tag f) tag = true).
Proof. destruct (Exported f), (tagged (Tag f) tag); auto. Qed.

Lemma nested_cases (f : Var) :
  (exists nested, Underlying underlying_of (deref (Type_ f)) = Struct nested) \/
  (forall nested, Underlying underlying_of (deref (Type_ f)) <> Struct nested).
Proof.
  destruct (Underlying underlying_of (deref (Type_ f))); eauto; right; discriminate.
Qed.

End FieldSteps.

(** ** Termination *)

Section Termination.

Variable underlying_of : TypeName -> type.
Variable tag : string.

Lemma checkFields_returns fields :
  (forall nested, nests underlying_of tag nested fields ->
                  exists d, returns_from underlying_of tag d nested) ->
  exists d, forall d', (d <= d')%nat -> forall pos,
    returns (checkFields underlying_of (checkStruct underlying_of d') fields tag pos).
Proof.
  induction fields as [|f rest IH]; intros Hnested.
  - exists 0%nat. intros d' _ pos. now exists (true, pos).
  - destruct IH as [d1 IH].
    { intros nested (g & Hin & Hg). apply Hnested.
      exists g. split; [now apply list_elem_of_further | exact Hg]. }
    destruct (field_cases tag f) as [E | [[E T] | [E T]]].
    + exists d1. intros d' Hd pos. rewrite checkFields_unexported by exact E. now apply IH.
    + exists 0%nat. intros d' _ pos. rewrite checkFields_untagged by assumption.
      now exists (false, pos).
    + destruct (nested_cases underlying_of f) as [[nested U] | N].
      * destruct (Hnested nested) as [d2 H2].
        { exists f. repeat split; try assumption. apply list_elem_of_here. }
        exists (Nat.max d1 d2). intros d' Hd pos.
        rewrite (checkFields_nested _ _ _ _ _ _ nested) by assumption.
        destruct (H2 d' ltac:(lia) pos) as [[[] pos'] ->].
        -- apply IH. lia.
        -- eexists. reflexivity.
      * exists d1. intros d' Hd pos. rewrite checkFields_plain by assumption. now apply IH.
Qed.

Lemma checkStruct_returns_from s :
  Acc (nests underlying_of tag) s -> exists d, returns_from underlying_of tag d s.
Proof.
  induction 1 as [s _ IH].
  destruct (checkFields_returns s IH) as [d Hd].
  exists (S d). intros d' Hle pos.
  destruct d' as [|d']; [lia|]. cbn [checkStruct]. apply Hd. lia.
Qed.

(** The result does not depend on how many activations were allowed, once
    they suffice. *)
Lemma checkFields_mono (self self' : Struct_ -> string -> Pos -> outcome (bool * Pos)) :
  (forall s pos r, self s tag pos = Ret r -> self' s tag pos = Ret r) ->
  forall fields pos r,
    checkFields underlying_of self fields tag pos = Ret r -> checkFields underlying_of self' fields tag pos = Ret r.
Proof.
  intros Hself. induction fields as [|f rest IH]; intros pos r; [trivial|].
  destruct (field_cases tag f) as [E | [[E T] | [E T]]].
  - rewrite !checkFields_unexported by exact E. apply IH.
  - now rewrite !checkFields_untagged by assumption.
  - destruct (nested_cases underlying_of f) as [[nested U] | N].
    + rewrite !(checkFields_nested _ _ _ _ _ _ nested) by assumption.
      destruct (self nested tag pos) as [[ok pos']| |] eqn:R; try discriminate.
      rewrite (Hself _ _ _ R). destruct ok; [apply IH | trivial].
    + rewrite !checkFields_plain by assumption. apply IH.
Qed.

Lemma checkStruct_mono d d' s pos r :
  (d <= d')%nat -> checkStruct underlying_of d s tag pos = Ret r -> checkStruct underlying_of d' s tag pos = Ret r.
Proof.
  revert d' s pos r. induction d as [|d IH]; intros d' s pos r Hle; [discriminate|].
  destruct d' as [|d']; [lia|]. cbn [checkStruct].
  apply checkFields_mono. intros s0 pos0 r0. apply IH. lia.
Qed.

End Termination.




(** A record whose tagged exported fields hold no record ends the descent. *)
Lemma Acc_nests_leaf underlying_of tag s :
  (forall f, f ∈ s -> Exported f = true -> tagged (Tag f) tag = true ->
             forall nested, Underlying underlying_of (deref (Type_ f)) <> Struct nested) ->
  Acc (nests underlying_of tag) s.
Proof.
  intros Hleaf. constructor. intros nested (f & Hin & E & T & U).
  now destruct (Hleaf f Hin E T nested).
Qed.

(** Takes a membership in a literal list of fields apart. *)
Ltac each_field H :=
  repeat (apply elem_of_cons in H as [-> | H]); [.. | now apply elem_of_nil in H].

Lemma Acc_User : Acc (nests universe jsonTag) User.
Proof.
  apply Acc_nests_leaf. intros f Hin E T nested. each_field Hin; discriminate.
Qed.

(** [Outer] nests [Mid], which nests [Inner], which nests nothing. *)
Lemma Acc_Outer : Acc (nests universe jsonTag) Outer.
Proof.
  constructor. intros mid (f & Hin & _ & _ & U).
  each_field Hin. cbn in U. injection U as <-.
  constructor. intros inner (f & Hin & _ & _ & U).
  each_field Hin. cbn in U. injection U as <-.
  apply Acc_nests_leaf. intros f Hin _ T. each_field Hin. discriminate T.
Qed.

(** ** What [checkStruct] returns *)

Lemma position_after_cons t path pos :
  position_after (t :: path) pos = position_after [t] (position_after path pos).
Proof. unfold position_after. destruct t; cbn; reflexivity. Qed.

Section Results.

Variable underlying_of : TypeName -> type.
Variable tag : string.

Lemma verified_fields s :
  verified underlying_of tag s <-> Forall (field_verified underlying_of tag) s.
Proof.
  rewrite Forall_forall. split.
  - intros [s' Htagged Hnested] f Hin E. split; [now apply Htagged|].
    intros nested U. apply Hnested. exists f. auto.
  - intros Hall. constructor.
    + intros f Hin E. now apply (Hall f Hin E).
    + intros nested (f & Hin & E & _ & U). now apply (Hall f Hin E).
Qed.

(** A result of the loop, read as a derivation: either all fields were
    verified and the position is untouched, or there is a failing path and
    the position is the one written along it. *)
Lemma checkFields_sound (self : Struct_ -> string -> Pos -> outcome (bool * Pos)) :
  (forall s pos ok p, self s tag pos = Ret (ok, p) ->
     (ok = true /\ p = pos /\ verified underlying_of tag s) \/
     (ok = false /\ exists path, fails_through underlying_of tag s path /\
                                 p = position_after path pos)) ->
  forall fields pre pos ok p,
    Forall (field_verified underlying_of tag) pre ->
    checkFields underlying_of self fields tag pos = Ret (ok, p) ->
    (ok = true /\ p = pos /\ Forall (field_verified underlying_of tag) fields) \/
    (ok = false /\ exists path, fails_through underlying_of tag (pre ++ fields) path /\
                                p = position_after path pos).
Proof.
  intros Hself. induction fields as [|f rest IH]; intros pre pos ok p Hpre H.
  { injection H as <- <-. left. auto. }
  assert (Hnext : field_verified underlying_of tag f ->
                  checkFields underlying_of self rest tag pos = Ret (ok, p) ->
    (ok = true /\ p = pos /\ Forall (field_verified underlying_of tag) (f :: rest)) \/
    (ok = false /\ exists path, fails_through underlying_of tag (pre ++ f :: rest) path /\
                                p = position_after path pos)).
  { intros Hf Hrest.
    destruct (IH (pre ++ [f]) pos ok p) as [(-> & -> & Hall) | (-> & path & Hpath & ->)];
      [apply Forall_app; auto | exact Hrest | left; auto | right].
    split; [reflexivity|]. exists path. now rewrite <- app_assoc in Hpath. }
  destruct (field_cases tag f) as [E | [[E T] | [E T]]].
  - rewrite checkFields_unexported in H by exact E.
    apply Hnext; [|exact H]. intros E'. congruence.
  - rewrite checkFields_untagged in H by assumption. injection H as <- <-.
    right. split; [reflexivity|]. exists []. split; [|reflexivity].
    now apply fails_untagged.
  - destruct (nested_cases underlying_of f) as [[nested U] | N].
    + rewrite (checkFields_nested _ _ _ _ _ _ nested) in H by assumption.
      destruct (self nested tag pos) as [[ok' p']| |] eqn:R; try discriminate.
      destruct (Hself _ _ _ _ R) as [(-> & -> & Hv) | (-> & path & Hpath & ->)].
      * apply Hnext; [|exact H]. intros _. split; [exact T|].
        intros nested' U'. congruence.
      * injection H as <- <-. right. split; [reflexivity|].
        exists (deref (Type_ f) :: path). split.
        -- eapply fails_nested; eassumption.
        -- symmetry. apply position_after_cons.
    + rewrite checkFields_plain in H by assumption.
      apply Hnext; [|exact H]. intros _. split; [exact T|].
      intros nested U. now destruct (N nested).
Qed.

Lemma checkStruct_sound d s pos ok p :
  checkStruct underlying_of d s tag pos = Ret (ok, p) ->
  (ok = true /\ p = pos /\ verified underlying_of tag s) \/
  (ok = false /\ exists path, fails_through underlying_of tag s path /\
                              p = position_after path pos).
Proof.
  revert s pos ok p. induction d as [|d IH]; intros s pos ok p H; [discriminate|].
  cbn [checkStruct] in H.
  destruct (checkFields_sound _ IH s [] pos ok p (Forall_nil_2 _) H)
    as [(-> & -> & Hall) | Hfail]; [left | right; exact Hfail].
  split; [reflexivity | split; [reflexivity | now apply verified_fields]].
Qed.

End Results.

Section Completeness.

Variable underlying_of : TypeName -> type.
Variable tag : string.

(** Fields that pass are run through without a trace. *)
Lemma checkFields_skip pre :
  Forall (fun f => Exported f = true ->
            tagged (Tag f) tag = true /\
            forall nested, Underlying underlying_of (deref (Type_ f)) = Struct nested ->
                           exists d, passes_from underlying_of tag d nested) pre ->
  exists d, forall d', (d <= d')%nat -> forall rest pos,
    checkFields underlying_of (checkStruct underlying_of d') (pre ++ rest) tag pos
    = checkFields underlying_of (checkStruct underlying_of d') rest tag pos.
Proof.
  induction 1 as [|f pre Hf _ [d1 IH]].
  - exists 0%nat. reflexivity.
  - destruct (field_cases tag f) as [E | [[E T] | [E T]]].
    + exists d1. intros d' Hd rest pos. cbn [app].
      rewrite checkFields_unexported by exact E. now apply IH.
    + destruct (Hf E) as [T' _]. congruence.
    + destruct (nested_cases underlying_of f) as [[nested U] | N].
      * destruct (Hf E) as [_ Hn]. destruct (Hn nested U) as [d2 H2].
        exists (Nat.max d1 d2). intros d' Hd rest pos. cbn [app].
        rewrite (checkFields_nested _ _ _ _ _ _ nested) by assumption.
        rewrite H2 by lia. apply IH. lia.
      * exists d1. intros d' Hd rest pos. cbn [app].
        rewrite checkFields_plain by assumption. now apply IH.
Qed.

Lemma verified_passes s :
  verified underlying_of tag s -> exists d, passes_from underlying_of tag d s.
Proof.
  induction 1 as [s Htagged _ IH].
  destruct (checkFields_skip s) as [d Hd].
  { apply Forall_forall. intros f Hin E. split; [now apply Htagged|].
    intros nested U. apply IH. exists f. auto. }
  exists (S d). intros d' Hle pos. destruct d' as [|d']; [lia|].
  cbn [checkStruct]. rewrite <- (app_nil_r s). rewrite Hd by lia. reflexivity.
Qed.

Lemma checkFields_skip_verified pre :
  Forall (field_verified underlying_of tag) pre ->
  exists d, forall d', (d <= d')%nat -> forall rest pos,
    checkFields underlying_of (checkStruct underlying_of d') (pre ++ rest) tag pos
    = checkFields underlying_of (checkStruct underlying_of d') rest tag pos.
Proof.
  intros Hpre. apply checkFields_skip.
  eapply Forall_impl; [exact Hpre|]. intros f Hf E. destruct (Hf E) as [T Hn].
  split; [exact T|]. intros nested U. apply verified_passes. now apply Hn.
Qed.

Lemma fails_through_returns s path :
  fails_through underlying_of tag s path ->
  exists d, forall d', (d <= d')%nat -> forall pos,
    checkStruct underlying_of d' s tag pos = Ret (false, position_after path pos).
Proof.
  induction 1 as [pre f post Hpre E T | pre f post nested path Hpre E T U _ [d2 IH]];
    destruct (checkFields_skip_verified pre Hpre) as [d1 H1].
  - exists (S d1). intros d' Hle pos. destruct d' as [|d']; [lia|].
    cbn [checkStruct]. rewrite H1 by lia. now apply checkFields_untagged.
  - exists (S (Nat.max d1 d2)). intros d' Hle pos. destruct d' as [|d']; [lia|].
    cbn [checkStruct]. rewrite H1 by lia.
    rewrite (checkFields_nested _ _ _ _ _ _ nested) by assumption.
    rewrite IH by lia. now rewrite <- position_after_cons.
Qed.

(** Verified records and records with a failing path are apart. *)
Lemma verified_not_fails s path :
  verified underlying_of tag s -> fails_through underlying_of tag s path -> False.
Proof.
  intros Hv Hf.
  destruct (verified_passes s Hv) as [d1 H1].
  destruct (fails_through_returns s path Hf) as [d2 H2].
  specialize (H1 (Nat.max d1 d2) ltac:(lia) 0).
  specialize (H2 (Nat.max d1 d2) ltac:(lia) 0). congruence.
Qed.

End Completeness.

(** A finite derivation of compliance bounds the descent. *)
Lemma verified_Acc underlying_of tag s :
  verified underlying_of tag s -> Acc (nests underlying_of tag) s.
Proof. induction 1 as [s _ _ IH]. constructor. exact IH. Qed.

(** Where a failing path ends: at a reachable record with an untagged
    exported field. *)
Lemma fails_through_untagged underlying_of tag s path :
  fails_through underlying_of tag s path ->
  exists s' f, reaches underlying_of tag s s' /\ f ∈ s' /\
               Exported f = true /\ tagged (Tag f) tag = false.
Proof.
  induction 1 as [pre f post _ E T | pre f post nested path _ E T U _ IH].
  - exists (pre ++ f :: post), f. split; [apply rtc_refl|].
    split; [|auto]. apply elem_of_app. right. apply list_elem_of_here.
  - destruct IH as (s' & g & Hreach & Hg). exists s', g. split; [|exact Hg].
    apply rtc_l with nested; [|exact Hreach].
    exists f. split; [|auto]. apply elem_of_app. right. apply list_elem_of_here.
Qed.




(** ** Compliance *)

Section Compliance.

Variable underlying_of : TypeName -> type.
Variable tag : string.

Lemma verified_Compliant s :
  verified underlying_of tag s -> Compliant underlying_of tag s.
Proof.
  intros Hv s' Hreach. induction Hreach as [s | s s1 s' Hstep _ IH].
  - now destruct Hv.
  - apply IH. destruct Hv as [s _ Hnested]. now apply Hnested.
Qed.

Lemma Compliant_verified s :
  Acc (nests underlying_of tag) s ->
  Compliant underlying_of tag s -> verified underlying_of tag s.
Proof.
  induction 1 as [s _ IH]. intros Hc. constructor.
  - apply Hc. apply rtc_refl.
  - intros nested Hn. apply IH; [exact Hn|].
    intros s' Hreach. apply Hc. now apply rtc_l with nested.
Qed.

(** On every record: [checkStruct] returns true exactly when compliance
    has a finite derivation. *)
Lemma checkStruct_true_iff_verified s pos :
  (exists d p, checkStruct underlying_of d s tag pos = Ret (true, p))
  <-> verified underlying_of tag s.
Proof.
  split.
  - intros (d & p & H).
    destruct (checkStruct_sound _ _ _ _ _ _ _ H) as [(_ & _ & Hv) | (Hf & _)];
      [exact Hv | discriminate].
  - intros Hv. destruct (verified_passes _ _ s Hv) as [d Hd].
    exists d, pos. now apply Hd.
Qed.

(** When the verification passed, the callback of [run] reports nothing. *)
Lemma visit_passed pass depth st call e s pos :
  declared pass = underlying_of ->
  tagAndExpr pass call = Ret (Some (tag, e)) ->
  structAndPos pass e = Ret (Some (s, pos)) ->
  checkStruct underlying_of depth s tag pos = Ret (true, pos) ->
  visit pass depth st call = Ret st.
Proof.
  intros <- Hm Hr Hc. unfold visit. rewrite Hm. cbn. rewrite Hr. cbn.
  now rewrite Hc.
Qed.

End Compliance.

(** [Tree] nests only itself, so every record it reaches is fully tagged. *)
Lemma Tree_nests_itself inner : nests universe jsonTag inner Tree -> inner = Tree.
Proof.
  intros (f & Hin & _ & _ & U). each_field Hin; cbn in U; congruence.
Qed.

Lemma Tree_reaches_itself s s' :
  reaches universe jsonTag s s' -> s = Tree -> s' = Tree.
Proof.
  induction 1 as [s | s s1 s' Hstep _ IH]; intros ->; [reflexivity|].
  apply IH. now apply Tree_nests_itself.
Qed.

Lemma Tree_Compliant : Compliant universe jsonTag Tree.
Proof.
  intros s' Hreach. rewrite (Tree_reaches_itself Tree s' Hreach eq_refl).
  intros f Hin _. each_field Hin; reflexivity.
Qed.

Lemma checkStruct_Tree_overflow d pos :
  checkStruct universe d Tree jsonTag pos = Overflow.
Proof.
  revert pos. induction d as [|d IH]; intros pos; [reflexivity|].
  cbn [checkStruct]. unfold Tree at 1.
  rewrite (checkFields_nested _ _ _ _ _ _ Tree); [| reflexivity ..].
  now rewrite IH.
Qed.

(** C2, as stated, fails: every exported field of [Tree], and of every
    record it reaches, carries the key, yet [checkStruct] never returns true
    on it (it never returns). *)
Lemma C2_compliant_but_never_true :
  Compliant universe jsonTag Tree /\
  ~ exists depth pos p, checkStruct universe depth Tree jsonTag pos = Ret (true, p).
Proof.
  split; [exact Tree_Compliant|].
  intros (d & pos & p & H). now rewrite checkStruct_Tree_overflow in H.
Qed.

(** C2, amended: on every record, [checkStruct] returns true if and only
    if every exported field of the record is tagged with the key, so is
    every exported field of every record reachable through tagged exported
    fields (one pointer removed), and the descent through those fields is
    well founded (no record is reached again from itself). When it returns
    true, it does so from that recursion depth on, the position is untouched
    and the callback of [run] emits no diagnostic; when it returns false the
    record is not compliant; and where the descent is well founded it
    returns. *)
Theorem C2_checkStruct_true_iff_compliant underlying_of tag s pos :
  ((exists depth p, checkStruct underlying_of depth s tag pos = Ret (true, p)) <->
   Compliant underlying_of tag s /\ Acc (nests underlying_of tag) s) /\
  (forall depth p,
     checkStruct underlying_of depth s tag pos = Ret (false, p) ->
     ~ Compliant underlying_of tag s) /\
  (forall depth p,
     checkStruct underlying_of depth s tag pos = Ret (true, p) ->
     p = pos /\
     forall depth', (depth <= depth')%nat ->
       checkStruct underlying_of depth' s tag pos = Ret (true, pos) /\
       forall pass call e st,
         declared pass = underlying_of ->
         tagAndExpr pass call = Ret (Some (tag, e)) ->
         structAndPos pass e = Ret (Some (s, pos)) ->
         visit pass depth' st call = Ret st) /\
  (Acc (nests underlying_of tag) s ->
   exists depth ok p, forall depth', (depth <= depth')%nat ->
     checkStruct underlying_of depth' s tag pos = Ret (ok, p)).
Proof.
  split; [|split; [|split]].
  - rewrite checkStruct_true_iff_verified. split.
    + intros Hv. split; [now apply verified_Compliant | now apply verified_Acc].
    + intros [Hc Hacc]. now apply Compliant_verified.
  - intros depth p H Hc.
    destruct (checkStruct_sound _ _ _ _ _ _ _ H) as [(Hf & _) | (_ & path & Hpath & _)];
      [discriminate|].
    destruct (fails_through_untagged underlying_of tag s path Hpath)
      as (s' & f & Hreach & Hin & E & T).
    rewrite (Hc s' Hreach f Hin E) in T. discriminate.
  - intros depth p H.
    destruct (checkStruct_sound _ _ _ _ _ _ _ H) as [(_ & -> & _) | (Hf & _)];
      [|discriminate].
    split; [reflexivity|]. intros d' Hle.
    pose proof (checkStruct_mono _ _ depth d' _ _ _ Hle H) as H'.
    split; [exact H'|]. intros pass call e st Hu Hm Hres.
    now apply (visit_passed underlying_of tag pass d' st call e s pos).
  - intros Hacc. destruct (checkStruct_returns_from underlying_of tag s Hacc) as [d Hd].
    destruct (Hd d (Nat.le_refl d) pos) as [[ok p] Hr]. exists d, ok, p.
    intros d' Hle. now apply (checkStruct_mono _ _ d).
Qed.

Lemma User_Compliant : Compliant universe jsonTag User.
Proof.
  apply verified_Compliant.
  apply (checkStruct_true_iff_verified universe jsonTag User 10).
  now exists 1%nat, 10.
Qed.

Lemma C2_checkStruct_true_iff_compliant_witness :
  (Compliant universe jsonTag User /\ Acc (nests universe jsonTag) User) /\
  exists depth p,
    checkStruct universe depth User jsonTag (obj_pos UserObj) = Ret (true, p).
Proof.
  assert (H : Compliant universe jsonTag User /\ Acc (nests universe jsonTag) User)
    by (split; [exact User_Compliant | exact Acc_User]).
  split; [exact H|].
  exact (proj2 (proj1 (C2_checkStruct_true_iff_compliant universe jsonTag User
                         (obj_pos UserObj))) H).
Defined.

(** ** Short circuit, and the fields that do not count *)

Section Loop.

Variable underlying_of : TypeName -> type.
Variable self : Struct_ -> string -> Pos -> outcome (bool * Pos).
Variable tag : string.

(** The loop over [pre ++ rest] is the loop over [pre], then, if that
    came to its end, the loop over [rest]. *)
Lemma checkFields_app pre rest pos :
  checkFields underlying_of self (pre ++ rest) tag pos
  = match checkFields underlying_of self pre tag pos with
    | Ret (true, pos') => checkFields underlying_of self rest tag pos'
    | stopped => stopped
    end.
Proof.
  revert pos. induction pre as [|f pre IH]; intros pos; [reflexivity|].
  cbn [app]. destruct (field_cases tag f) as [E | [[E T] | [E T]]].
  - rewrite !checkFields_unexported by exact E. apply IH.
  - now rewrite !checkFields_untagged by assumption.
  - destruct (nested_cases underlying_of f) as [[nested U] | N].
    + rewrite !(checkFields_nested _ _ _ _ _ _ nested) by assumption.
      destruct (self nested tag pos) as [[[] pos']| |]; [apply IH | reflexivity ..].
    + rewrite !checkFields_plain by assumption. apply IH.
Qed.

Lemma checkFields_exported_only fields pos :
  checkFields underlying_of self (List.filter Exported fields) tag pos
  = checkFields underlying_of self fields tag pos.
Proof.
  revert pos. induction fields as [|f rest IH]; intros pos; [reflexivity|].
  cbn [List.filter]. destruct (Exported f) eqn:E.
  - cbn [checkFields]. rewrite E. cbn [negb].
    destruct (tagged (Tag f) tag); cbn [negb]; [|reflexivity].
    destruct (Underlying underlying_of (deref (Type_ f))); try apply IH.
    destruct (self fields tag pos) as [[[] pos']| |]; cbn; [apply IH | reflexivity ..].
  - rewrite (checkFields_unexported _ _ _ f) by exact E. apply IH.
Qed.

End Loop.

Lemma checkStruct_Chain_overflow d pos :
  checkStruct universe d Chain jsonTag pos = Overflow.
Proof.
  revert pos. induction d as [|d IH]; intros pos; [reflexivity|].
  cbn [checkStruct]. unfold Chain at 1.
  rewrite (checkFields_nested _ _ _ _ _ _ Chain); [| reflexivity ..].
  now rewrite IH.
Qed.

(** C5, as stated, fails: [Chain] has an exported untagged field, [Label],
    and no other, yet [checkStruct] does not return false on it: the
    tagged field [Next] before it sends the verifier into [Chain] again. *)
Lemma C5_untagged_field_never_reached :
  (exists pre f post,
     Chain = pre ++ f :: post /\ Exported f = true /\ tagged (Tag f) jsonTag = false /\
     Forall (fun g => Exported g = true -> tagged (Tag g) jsonTag = true) pre) /\
  ~ exists depth pos p, checkStruct universe depth Chain jsonTag pos = Ret (false, p).
Proof.
  split.
  - exists [mkVar "Next" true (kv "json" "next") (Pointer (Named ChainObj))],
           (mkVar "Label" true "" (Basic "string")), [].
    repeat split. apply Forall_cons. split; [reflexivity | apply Forall_nil_2].
  - intros (d & pos & p & H). now rewrite checkStruct_Chain_overflow in H.
Qed.

(** C5, amended: the fields after an exported untagged field never count
    (no descent into their records, no position written for them), whatever
    the verifier does before; and when the loop over the fields before it
    returns, [checkStruct] returns false with the position that loop left,
    which is the position on entry if those fields all passed. *)
Theorem C5_checkStruct_short_circuit underlying_of depth pre f post tag pos :
  Exported f = true ->
  tagged (Tag f) tag = false ->
  (forall post',
     checkStruct underlying_of depth (pre ++ f :: post') tag pos
     = checkStruct underlying_of depth (pre ++ f :: post) tag pos) /\
  (forall ok p,
     checkFields underlying_of (checkStruct underlying_of depth) pre tag pos = Ret (ok, p) ->
     checkStruct underlying_of (S depth) (pre ++ f :: post) tag pos = Ret (false, p) /\
     (ok = true -> p = pos)).
Proof.
  intros E T. split.
  - intros post'. destruct depth as [|d]; [reflexivity|]. cbn [checkStruct].
    rewrite !checkFields_app.
    destruct (checkFields underlying_of (checkStruct underlying_of d) pre tag pos)
      as [[[] p]| |]; try reflexivity.
    now rewrite !checkFields_untagged by assumption.
  - intros ok p Hpre. cbn [checkStruct]. rewrite checkFields_app, Hpre.
    destruct (checkFields_sound underlying_of tag _
                (checkStruct_sound underlying_of tag depth) pre [] pos ok p
                (Forall_nil_2 _) Hpre) as [(-> & -> & _) | (-> & _)].
    + split; [now apply checkFields_untagged | reflexivity].
    + split; [reflexivity | discriminate].
Qed.

Lemma C5_checkStruct_short_circuit_witness :
  Exported (mkVar "Y" true "" int) = true /\
  tagged (Tag (mkVar "Y" true "" int)) jsonTag = false /\
  (forall post',
     checkStruct universe 1 ([mkVar "X" true (kv "json" "x") int]
                              ++ mkVar "Y" true "" int :: post') jsonTag 800
     = checkStruct universe 1 Point jsonTag 800) /\
  (forall ok p,
     checkFields universe (checkStruct universe 1)
                 [mkVar "X" true (kv "json" "x") int] jsonTag 800 = Ret (ok, p) ->
     checkStruct universe 2 Point jsonTag 800 = Ret (false, p) /\
     (ok = true -> p = 800)).
Proof.
  split; [reflexivity|]. split; [reflexivity|].
  exact (C5_checkStruct_short_circuit universe 1
           [mkVar "X" true (kv "json" "x") int] (mkVar "Y" true "" int) []
           jsonTag 800 eq_refl eq_refl).
Defined.

(** C6: two records with the same exported fields, in the same order, get
    the same result and the same position from [checkStruct], whatever
    unexported fields either of them has, and wherever. *)
Theorem C6_unexported_fields_do_not_count underlying_of depth s1 s2 tag pos :
  List.filter Exported s1 = List.filter Exported s2 ->
  checkStruct underlying_of depth s1 tag pos = checkStruct underlying_of depth s2 tag pos.
Proof.
  intros Hsame. destruct depth as [|d]; [reflexivity|]. cbn [checkStruct].
  rewrite <- (checkFields_exported_only _ _ _ s1), <- (checkFields_exported_only _ _ _ s2).
  now rewrite Hsame.
Qed.

Lemma C6_unexported_fields_do_not_count_witness :
  List.filter Exported User
  = List.filter Exported
      [ mkVar "secret" false (kv "json" "secret") (Named InnerObj);
        mkVar "Name" true (kv "json" "name") (Basic "string") ] /\
  checkStruct universe 2 User jsonTag 10
  = checkStruct universe 2
      [ mkVar "secret" false (kv "json" "secret") (Named InnerObj);
        mkVar "Name" true (kv "json" "name") (Basic "string") ] jsonTag 10.
Proof.
  split; [reflexivity|].
  exact (C6_unexported_fields_do_not_count universe 2 User _ jsonTag 10 eq_refl).
Defined.

(** ** The position that is reported *)

Lemma Inner_fails : fails_through universe jsonTag Inner [].
Proof. now apply (fails_untagged universe jsonTag [] (mkVar "Value" true "" int) []). Qed.

Lemma Mid_fails : fails_through universe jsonTag Mid [Named InnerObj].
Proof.
  apply (fails_nested universe jsonTag []
           (mkVar "In" true (kv "json" "in") (Named InnerObj)) [] Inner []);
    try reflexivity; [apply Forall_nil_2 | exact Inner_fails].
Qed.

Lemma Outer_fails : fails_through universe jsonTag Outer [Named MidObj; Named InnerObj].
Proof.
  apply (fails_nested universe jsonTag []
           (mkVar "Mid" true (kv "json" "mid") (Named MidObj)) [] Mid [Named InnerObj]);
    try reflexivity; [apply Forall_nil_2 | exact Mid_fails].
Qed.

Lemma Wrapper_fails : fails_through universe jsonTag Wrapper [Struct Box; Named InnerObj].
Proof.
  apply (fails_nested universe jsonTag []
           (mkVar "Box" true (kv "json" "box") (Struct Box)) [] Box [Named InnerObj]);
    try reflexivity; [apply Forall_nil_2 | exact Mid_fails].
Qed.

Lemma Shell_fails : fails_through universe jsonTag Shell [Named PartObj; Struct Raw].
Proof.
  apply (fails_nested universe jsonTag []
           (mkVar "Part" true (kv "json" "part") (Named PartObj)) [] Part [Struct Raw]);
    try reflexivity; [apply Forall_nil_2|].
  apply (fails_nested universe jsonTag []
           (mkVar "Raw" true (kv "json" "raw") (Struct Raw)) [] Raw []);
    try reflexivity; [apply Forall_nil_2|].
  now apply (fails_untagged universe jsonTag [] (mkVar "X" true "" int) []).
Qed.

(** C4, as stated, fails at depth two: [Outer] fails through its field of
    type [Mid], which fails through its field of type [Inner], the record
    with the untagged field. The position [checkStruct] leaves is the
    declaration of [Mid], written last on the way out, and not that of
    [Inner], the deepest named record on the failing path. *)
Lemma C4_position_is_not_the_deepest :
  fails_through universe jsonTag Outer [Named MidObj; Named InnerObj] /\
  checkStruct universe 3 Outer jsonTag (obj_pos OuterObj) = Ret (false, obj_pos MidObj) /\
  deepest_position [Named MidObj; Named InnerObj] (obj_pos OuterObj) = obj_pos InnerObj /\
  obj_pos MidObj <> obj_pos InnerObj.
Proof.
  split; [exact Outer_fails|]. split; [reflexivity|]. split; [reflexivity | discriminate].
Qed.

(** C4, amended: when the verification of a record fails through nested
    records and some record type on the failing path is named, the position
    left is the declaration of the outermost named type on that path (each
    level with a named field type overwrites what deeper levels wrote);
    this is the declaration of the failing nested record itself when the
    failing field's own type is named, and with one level of nesting it is
    the declaration of the record with the untagged field. *)
Theorem C4_position_of_outermost_named underlying_of tag s path outermost deeper :
  fails_through underlying_of tag s path ->
  named_on path = outermost :: deeper ->
  exists depth, forall depth', (depth <= depth')%nat -> forall pos,
    checkStruct underlying_of depth' s tag pos = Ret (false, obj_pos outermost).
Proof.
  intros Hpath Hnamed.
  destruct (fails_through_returns underlying_of tag s path Hpath) as [d Hd].
  exists d. intros d' Hle pos. rewrite (Hd d' Hle pos).
  unfold position_after. now rewrite Hnamed.
Qed.

Lemma C4_position_of_outermost_named_witness :
  fails_through universe jsonTag Mid [Named InnerObj] /\
  named_on [Named InnerObj] = [InnerObj] /\
  exists depth, forall depth', (depth <= depth')%nat -> forall pos,
    checkStruct universe depth' Mid jsonTag pos = Ret (false, obj_pos InnerObj).
Proof.
  split; [exact Mid_fails|]. split; [reflexivity|].
  exact (C4_position_of_outermost_named universe jsonTag Mid [Named InnerObj]
           InnerObj [] Mid_fails eq_refl).
Defined.

(** C10, as stated, fails: [Wrapper] fails because the record of its field
    [Box], an anonymous struct, fails; the position is nevertheless changed,
    by the activation for [Box], to the declaration of [Inner]. And [Shell]
    fails because of the anonymous record of [Part.Raw], the one with the
    untagged field; the position is changed to the declaration of [Part]. *)
Lemma C10_anonymous_failure_moves_position :
  (fails_through universe jsonTag Wrapper [Struct Box; Named InnerObj] /\
   checkStruct universe 3 Wrapper jsonTag (obj_pos WrapperObj)
   = Ret (false, obj_pos InnerObj) /\
   obj_pos InnerObj <> obj_pos WrapperObj) /\
  (fails_through universe jsonTag Shell [Named PartObj; Struct Raw] /\
   checkStruct universe 3 Shell jsonTag (obj_pos ShellObj)
   = Ret (false, obj_pos PartObj) /\
   obj_pos PartObj <> obj_pos ShellObj).
Proof.
  split.
  - split; [exact Wrapper_fails|]. split; [reflexivity | discriminate].
  - split; [exact Shell_fails|]. split; [reflexivity | discriminate].
Qed.

(** C10, amended: whenever [checkStruct] returns true the position is as on
    entry; when it returns false the record has a failing path, and the
    position is as on entry if no record type on that path is named (in
    particular when the failure is an untagged field of the record itself,
    the path being empty), and otherwise it is the declaration of a named
    type on the path, the outermost one. An anonymous failing record does
    not write the position, but does not undo what deeper named records
    wrote. *)
Theorem C10_position_frame underlying_of depth s tag pos ok p :
  checkStruct underlying_of depth s tag pos = Ret (ok, p) ->
  (ok = true -> p = pos) /\
  (ok = false ->
     (exists path, fails_through underlying_of tag s path) /\
     forall path,
       fails_through underlying_of tag s path ->
       match named_on path with
       | [] => p = pos
       | outermost :: _ => p = obj_pos outermost
       end).
Proof.
  intros H.
  destruct (checkStruct_sound _ _ _ _ _ _ _ H) as [(-> & -> & _) | (-> & path & Hpath & ->)].
  - split; [reflexivity | discriminate].
  - split; [discriminate|]. intros _. split; [now exists path|].
    intros path' Hpath'.
    destruct (fails_through_returns underlying_of tag s path' Hpath') as [d Hd].
    pose proof (Hd (Nat.max d depth) ltac:(lia) pos) as H'.
    rewrite (checkStruct_mono _ _ depth (Nat.max d depth) _ _ _ ltac:(lia) H) in H'.
    injection H' as ->. unfold position_after. now destruct (named_on path').
Qed.

Lemma Point_fails : fails_through universe jsonTag Point [].
Proof.
  apply (fails_untagged universe jsonTag [mkVar "X" true (kv "json" "x") int]
           (mkVar "Y" true "" int) []); try reflexivity.
  apply Forall_cons. split; [|apply Forall_nil_2].
  intros _. split; [reflexivity | discriminate].
Qed.

Lemma C10_position_frame_witness :
  checkStruct universe 1 Point jsonTag 800 = Ret (false, 800) /\
  fails_through universe jsonTag Point [] /\
  800 = 800.
Proof.
  split; [reflexivity|]. split; [exact Point_fails|].
  exact (proj2 (proj2 (C10_position_frame universe 1 Point jsonTag 800 false 800 eq_refl)
                  eq_refl) [] Point_fails).
Defined.

(** ** Tagged fields *)

Lemma tagged_loop (p : string -> bool) pieces (seen : bool) :
  fold_left (fun tagged t => if p t then true else tagged) pieces seen
  = (seen || existsb p pieces)%bool.
Proof.
  revert seen. induction pieces as [|t pieces IH]; intros seen; cbn.
  - now rewrite orb_false_r.
  - rewrite IH. destruct (p t), seen; reflexivity.
Qed.

Lemma tagged_existsb fieldTag tag :
  tagged fieldTag tag
  = existsb (fun t => HasPrefix t (String.append tag ":")) (Split fieldTag space).
Proof. unfold tagged. now rewrite tagged_loop. Qed.

(** An empty piece never starts with [tag + ":"]. *)
Lemma HasPrefix_empty tag : HasPrefix EmptyString (String.append tag ":") = false.
Proof. now destruct tag. Qed.

(** Where the space is the only white space, both ways of splitting agree. *)
Lemma SplitAt_isSpace s :
  Forall (fun c => isSpace c = true -> c = space) (list_ascii_of_string s) ->
  SplitAt isSpace s = Split s space.
Proof.
  induction s as [|c s IH]; intros Hall; [reflexivity|].
  cbn [list_ascii_of_string] in Hall. apply Forall_cons in Hall as [Hc Hall].
  cbn [SplitAt Split]. rewrite (IH Hall).
  destruct (isSpace c) eqn:Ec.
  - rewrite (Hc eq_refl). reflexivity.
  - destruct (Ascii.eqb_spec c space) as [-> | _]; [discriminate | reflexivity].
Qed.

Lemma existsb_nonempty (p : string -> bool) pieces :
  p EmptyString = false ->
  existsb p (filter (fun piece => piece <> EmptyString) pieces) = existsb p pieces.
Proof.
  intros Hp. induction pieces as [|t pieces IH]; [reflexivity|].
  rewrite filter_cons. destruct (decide (t <> EmptyString)) as [_ | E]; cbn.
  - now rewrite IH.
  - rewrite IH. destruct (decide (t = EmptyString)) as [-> | N]; [now rewrite Hp | contradiction].
Qed.

(** C7, as stated, fails where the annotation has other white space than
    the space: split around white space, the tab-separated annotation has
    the token [json:"name"], but [checkStruct] splits at spaces only, finds
    one piece, which starts with [yaml:], and takes the field for untagged. *)
Lemma C7_tab_is_not_a_separator :
  tagged_by_whitespace tab_separated jsonTag = true /\
  tagged tab_separated jsonTag = false /\
  checkStruct universe 1 [mkVar "Name" true tab_separated (Basic "string")] jsonTag 0
  = Ret (false, 0).
Proof. repeat split. Qed.

(** C7, amended: an exported field counts as tagged for a key if and only
    if one of the pieces of its annotation between spaces (the byte 32; a
    tab or a line feed separates nothing) starts with the key followed by a
    colon; a field with no such piece makes [checkStruct] return false. On
    annotations whose only white space is the space this is the same as
    splitting around white space. *)
Theorem C7_tagged_iff_piece_has_prefix fieldTag tag :
  (tagged fieldTag tag = true <->
   exists piece, piece ∈ Split fieldTag space /\
                 HasPrefix piece (String.append tag ":") = true) /\
  (forall underlying_of depth name typ rest pos,
     tagged fieldTag tag = false ->
     checkStruct underlying_of (S depth) (mkVar name true fieldTag typ :: rest) tag pos
     = Ret (false, pos)) /\
  (Forall (fun c => isSpace c = true -> c = space) (list_ascii_of_string fieldTag) ->
   tagged fieldTag tag = tagged_by_whitespace fieldTag tag).
Proof.
  split; [|split].
  - rewrite tagged_existsb, existsb_exists. split.
    + intros (t & Hin & Hp). exists t. split; [now apply list_elem_of_In | exact Hp].
    + intros (t & Hin & Hp). exists t. split; [now apply list_elem_of_In | exact Hp].
  - intros underlying_of depth name typ rest pos T. cbn [checkStruct].
    now apply checkFields_untagged.
  - intros Hall. rewrite tagged_existsb. unfold tagged_by_whitespace, Fields.
    rewrite (SplitAt_isSpace _ Hall). symmetry. apply existsb_nonempty, HasPrefix_empty.
Qed.

Lemma C7_tagged_iff_piece_has_prefix_witness :
  Forall (fun c => isSpace c = true -> c = space)
         (list_ascii_of_string (kv "yaml" "n" +:+ " " +:+ kv "json" "n")) /\
  tagged (kv "yaml" "n" +:+ " " +:+ kv "json" "n") jsonTag
  = tagged_by_whitespace (kv "yaml" "n" +:+ " " +:+ kv "json" "n") jsonTag.
Proof.
  assert (H : Forall (fun c => isSpace c = true -> c = space)
                (list_ascii_of_string (kv "yaml" "n" +:+ " " +:+ kv "json" "n"))).
  { repeat (apply Forall_cons; split; [vm_compute; intros E; first [discriminate E | reflexivity]|]).
    apply Forall_nil_2. }
  split; [exact H|].
  exact (proj2 (proj2 (C7_tagged_iff_piece_has_prefix
                         (kv "yaml" "n" +:+ " " +:+ kv "json" "n") jsonTag)) H).
Defined.

(** ** The call matcher *)

(** C8, as stated, fails: a call of [json.Unmarshal] with no argument has
    fewer arguments than the index 1 of its rule, and one with a single
    argument (the operand is a call with two results) has none at index 1;
    [tagAndExpr] indexes [call.Args] unguarded, and panics on both, where
    the claim has it return "no match". *)
Lemma C8_too_few_arguments_panic :
  rule json_Unmarshal = Some (jsonTag, 1%nat) /\
  StaticCallee package (json_ "Unmarshal" []) = Some json_Unmarshal /\
  tagAndExpr package (json_ "Unmarshal" []) = Panic /\
  tagAndExpr package (json_ "Unmarshal" [OtherExpr 1200]) = Panic.
Proof. repeat split. Qed.

(** C8, amended: [tagAndExpr] returns "no match" when the call has no static
    callee or the callee has no serialization rule; when the callee has a
    rule and the call has an argument at the index of the rule, it returns
    the key of the rule and that argument; it does not compare the number
    of arguments with the index, and a call to a callee with a rule that has
    no argument at the index makes it panic. *)
Theorem C8_tagAndExpr_by_rule pass call :
  tagAndExpr pass call
  = match StaticCallee pass call ≫= rule with
    | None => Ret None
    | Some (key, i) =>
        match nth_error (Args call) i with
        | Some arg => Ret (Some (key, arg))
        | None => Panic
        end
    end.
Proof.
  unfold tagAndExpr. destruct (StaticCallee pass call) as [fullName|]; [|reflexivity].
  cbn [mbind option_bind]. unfold rule, rules, index. cbn [List.find fst snd].
  destruct (String.eqb fullName json_Marshal); cbn [orb fmap option_fmap option_map snd];
    [now destruct (nth_error (Args call) 0)|].
  destruct (String.eqb fullName json_MarshalIndent); cbn [orb fmap option_fmap option_map snd];
    [now destruct (nth_error (Args call) 0)|].
  destruct (String.eqb fullName json_Encoder_Encode); cbn [orb fmap option_fmap option_map snd];
    [now destruct (nth_error (Args call) 0)|].
  destruct (String.eqb fullName json_Decoder_Decode); cbn [orb fmap option_fmap option_map snd];
    [now destruct (nth_error (Args call) 0)|].
  destruct (String.eqb fullName json_Unmarshal); cbn [orb fmap option_fmap option_map snd];
    [now destruct (nth_error (Args call) 1) | reflexivity].
Qed.

(** ** The type resolver *)

(** C9, as stated, fails: [&cfg.Box] has a single pointer to a record as
    its static type, an anonymous one, and is neither an identifier nor a
    composite literal under its operator; [structAndPos] resolves it to
    "no match", not to the record pointed to. *)
Lemma C9_pointer_to_record_unresolved :
  TypeOf package (UnaryExpr "&" cfg_Box) = Some (Pointer (Struct Box)) /\
  structAndPos package (UnaryExpr "&" cfg_Box) = Ret None.
Proof. split; reflexivity. Qed.

(** C9, amended: [structAndPos] removes one pointer from the static type of
    the expression and no more. If what remains is a named type declared as
    a record, it resolves that record at the declaration of the name. If it
    is an anonymous record, the result depends on the expression under one
    unary operator: an identifier resolves the record at the declaration of
    its object (and panics when the object is nil), a composite literal
    resolves it at the literal, and any other expression is "no match".
    A pointer to a pointer, a named type not declared as a record, and every
    type that is neither named nor a struct (a basic type, an interface, a
    map, a slice) are "no match". *)
Theorem C9_structAndPos_one_indirection pass expr t :
  TypeOf pass expr = Some t ->
  (forall obj s, deref t = Named obj -> declared pass obj = Struct s ->
     structAndPos pass expr = Ret (Some (s, obj_pos obj))) /\
  (forall s, deref t = Struct s ->
     structAndPos pass expr
     = match operand expr with
       | Ident _ _ (Some objPos) => Ret (Some (s, objPos))
       | Ident _ _ None => Panic
       | CompositeLit litPos => Ret (Some (s, litPos))
       | _ => Ret None
       end) /\
  (forall elem, t = Pointer (Pointer elem) -> structAndPos pass expr = Ret None) /\
  (forall obj, deref t = Named obj -> (forall s, declared pass obj <> Struct s) ->
     structAndPos pass expr = Ret None) /\
  ((forall obj, deref t <> Named obj) -> (forall s, deref t <> Struct s) ->
     structAndPos pass expr = Ret None).
Proof.
  intros Ht.
  assert (Hunfold : structAndPos pass expr
    = match deref t with
      | Named obj =>
          match declared pass obj with
          | Struct s => Ret (Some (s, obj_pos obj))
          | _ => Ret None
          end
      | Struct s =>
          match operand expr with
          | Ident _ _ (Some objPos) => Ret (Some (s, objPos))
          | Ident _ _ None => Panic
          | CompositeLit litPos => Ret (Some (s, litPos))
          | _ => Ret None
          end
      | _ => Ret None
      end).
  { unfold structAndPos. rewrite Ht. destruct t; reflexivity. }
  rewrite Hunfold. split; [|split; [|split; [|split]]].
  - intros obj s -> ->. reflexivity.
  - intros s ->. reflexivity.
  - intros elem ->. reflexivity.
  - intros obj -> Hno. destruct (declared pass obj) eqn:D; try reflexivity.
    now destruct (Hno fields).
  - intros Hnamed Hstruct. destruct (deref t) eqn:D; try reflexivity.
    + now destruct (Hnamed obj).
    + now destruct (Hstruct fields).
Qed.

Lemma C9_structAndPos_one_indirection_witness :
  TypeOf package (UnaryExpr "&" user) = Some (Pointer (Named UserObj)) /\
  structAndPos package (UnaryExpr "&" user) = Ret (Some (User, obj_pos UserObj)).
Proof.
  split; [reflexivity|].
  exact (proj1 (C9_structAndPos_one_indirection package (UnaryExpr "&" user)
                  (Pointer (Named UserObj)) eq_refl)
           UserObj User eq_refl eq_refl).
Defined.

(** ** Reporting once *)

Section Reporting.

Variable pass : Pass.
Variable depth : nat.

(** The last step of the callback: the report is emitted unless it is in
    [reported] already. *)
Lemma visit_failed st call tag s pos p :
  resolves_to pass tag s pos call ->
  checkStruct (declared pass) depth s tag pos = Ret (false, p) ->
  visit pass depth st call
  = if decide ((p, tag) ∈ reported st) then Ret st
    else Ret {| reported := {[ (p, tag) ]} ∪ reported st;
                diagnostics := diagnostics st ++ [(p, tag)] |}.
Proof.
  intros (expr & Hm & Hr) Hc. unfold visit. rewrite Hm. cbn. rewrite Hr. cbn.
  now rewrite Hc.
Qed.

Lemma visit_reported_once st call st' :
  reported_once st -> visit pass depth st call = Ret st' -> reported_once st'.
Proof.
  intros [Hnodup Hsame] H. unfold visit in H.
  destruct (tagAndExpr pass call) as [[[tag expr]|]| |]; cbn in H; try discriminate;
    [|injection H as <-; now split].
  destruct (structAndPos pass expr) as [[[s pos]|]| |]; cbn in H; try discriminate;
    [|injection H as <-; now split].
  destruct (checkStruct (declared pass) depth s tag pos) as [[[] p]| |];
    cbn in H; try discriminate; [injection H as <-; now split|].
  case_decide as Hnew; injection H as <-; [now split|].
  split; cbn.
  - apply NoDup_app. split; [exact Hnodup|]. split; [|apply NoDup_singleton].
    intros r Hr ->%list_elem_of_singleton. apply Hnew. now apply Hsame.
  - intros r. rewrite elem_of_union, elem_of_singleton, elem_of_app,
      list_elem_of_singleton, Hsame. tauto.
Qed.

Lemma preorder_reported_once calls st st' :
  reported_once st -> preorder pass depth st calls = Ret st' -> reported_once st'.
Proof.
  revert st. induction calls as [|call calls IH]; intros st Hst H; cbn in H.
  - now injection H as <-.
  - destruct (visit pass depth st call) as [st1| |] eqn:Hv; cbn in H; try discriminate.
    apply (IH st1); [|exact H]. now apply (visit_reported_once st call).
Qed.

End Reporting.

Lemma start_reported_once : reported_once start.
Proof.
  split; [apply NoDup_nil_2|]. intros r. cbn. rewrite elem_of_nil. set_solver.
Qed.

(** * Further properties of the verifier *)

Section VerifierFacts.

Variable underlying_of : TypeName -> type.
Variable tag : string.

(** Two fields that agree on what the loop reads are treated alike. *)
Lemma checkFields_same_reading self f g rest pos :
  Exported f = Exported g -> Tag f = Tag g -> deref (Type_ f) = deref (Type_ g) ->
  checkFields underlying_of self (f :: rest) tag pos
  = checkFields underlying_of self (g :: rest) tag pos.
Proof. intros E T D. cbn [checkFields]. now rewrite E, T, D. Qed.

Lemma checkFields_middle self pre f g post pos :
  (forall pos', checkFields underlying_of self (f :: post) tag pos'
                = checkFields underlying_of self (g :: post) tag pos') ->
  checkFields underlying_of self (pre ++ f :: post) tag pos
  = checkFields underlying_of self (pre ++ g :: post) tag pos.
Proof.
  intros H. rewrite !checkFields_app.
  destruct (checkFields underlying_of self pre tag pos) as [[[] p]| |]; auto.
Qed.

End VerifierFacts.

(** X1: a record with no exported field, the empty record included, is
    verified by the first activation, whatever its unexported fields are
    tagged with or hold, and the position is left alone. *)
Theorem checkStruct_no_exported_field underlying_of depth s tag pos :
  Forall (fun f => Exported f = false) s ->
  checkStruct underlying_of (S depth) s tag pos = Ret (true, pos).
Proof.
  intros Hall. cbn [checkStruct]. induction Hall as [|f s E _ IH]; [reflexivity|].
  now rewrite checkFields_unexported.
Qed.

Lemma checkStruct_no_exported_field_witness :
  Forall (fun f => Exported f = false)
         [mkVar "next" false "" (Pointer (Named NodeObj)); mkVar "age" false "" int] /\
  checkStruct universe 1
    [mkVar "next" false "" (Pointer (Named NodeObj)); mkVar "age" false "" int]
    jsonTag 7 = Ret (true, 7).
Proof.
  assert (H : Forall (fun f => Exported f = false)
                [mkVar "next" false "" (Pointer (Named NodeObj));
                 mkVar "age" false "" int]).
  { repeat (apply Forall_cons; split; [reflexivity|]). apply Forall_nil_2. }
  split; [exact H | exact (checkStruct_no_exported_field universe 0 _ jsonTag 7 H)].
Defined.

(** X2: one pointer on a field's type is transparent: a field of type [*T]
    is verified exactly as the same field of type [T] (for [T] not itself a
    pointer), with the same result and the same position, at any place in
    the record. *)
Theorem checkStruct_pointer_field underlying_of depth pre name exported ftag t post tag pos :
  (forall elem, t <> Pointer elem) ->
  checkStruct underlying_of depth (pre ++ mkVar name exported ftag (Pointer t) :: post) tag pos
  = checkStruct underlying_of depth (pre ++ mkVar name exported ftag t :: post) tag pos.
Proof.
  intros Hnp. destruct depth as [|d]; [reflexivity|]. cbn [checkStruct].
  apply checkFields_middle. intros pos'. apply checkFields_same_reading; try reflexivity.
  cbn [Type_ deref]. destruct t; try reflexivity. now destruct (Hnp t).
Qed.

Lemma checkStruct_pointer_field_witness :
  (forall elem, Named InnerObj <> Pointer elem) /\
  checkStruct universe 2 [mkVar "In" true (kv "json" "in") (Pointer (Named InnerObj))]
              jsonTag 500
  = checkStruct universe 2 Mid jsonTag 500.
Proof.
  assert (H : forall elem, Named InnerObj <> Pointer elem) by discriminate.
  split; [exact H|].
  exact (checkStruct_pointer_field universe 2 [] "In" true (kv "json" "in")
           (Named InnerObj) [] jsonTag 500 H).
Defined.

(** X3: the verifier does not look into containers or through two
    pointers: a tagged exported field whose type is a slice, a map or a
    pointer to a pointer counts like no field at all, whatever record the
    element type is. *)
Theorem checkStruct_container_field underlying_of depth pre f post tag pos :
  Exported f = true ->
  tagged (Tag f) tag = true ->
  (exists elem, Type_ f = Slice elem) \/
  (exists key elem, Type_ f = Map key elem) \/
  (exists elem, Type_ f = Pointer (Pointer elem)) ->
  checkStruct underlying_of depth (pre ++ f :: post) tag pos
  = checkStruct underlying_of depth (pre ++ post) tag pos.
Proof.
  intros E T Hty. destruct depth as [|d]; [reflexivity|]. cbn [checkStruct].
  rewrite !checkFields_app.
  destruct (checkFields underlying_of (checkStruct underlying_of d) pre tag pos)
    as [[[] p]| |]; try reflexivity.
  apply checkFields_plain; [exact E | exact T |].
  intros nested. destruct Hty as [[elem ->] | [(key & elem & ->) | [elem ->]]];
    cbn; discriminate.
Qed.

Lemma checkStruct_container_field_witness :
  Exported (mkVar "Items" true (kv "json" "items") (Slice (Named InnerObj))) = true /\
  tagged (Tag (mkVar "Items" true (kv "json" "items") (Slice (Named InnerObj)))) jsonTag
  = true /\
  checkStruct universe 2
    ([mkVar "Name" true (kv "json" "name") (Basic "string")]
     ++ mkVar "Items" true (kv "json" "items") (Slice (Named InnerObj)) :: []) jsonTag 10
  = checkStruct universe 2
      ([mkVar "Name" true (kv "json" "name") (Basic "string")] ++ []) jsonTag 10.
Proof.
  split; [reflexivity|]. split; [reflexivity|].
  exact (checkStruct_container_field universe 2
           [mkVar "Name" true (kv "json" "name") (Basic "string")]
           (mkVar "Items" true (kv "json" "items") (Slice (Named InnerObj))) []
           jsonTag 10 eq_refl eq_refl (or_introl (ex_intro _ (Named InnerObj) eq_refl))).
Defined.

(** X4: the verdict does not depend on the order of the fields, nor on the
    position passed in, nor on how deep the recursion was allowed to go:
    whenever [checkStruct] returns on a record and on a permutation of its
    fields, it returns the same boolean. (The position left may differ: it
    is chosen by the first field that fails.) *)
Theorem checkStruct_verdict_order underlying_of tag s s' d d' pos pos' ok ok' p p' :
  s ≡ₚ s' ->
  checkStruct underlying_of d s tag pos = Ret (ok, p) ->
  checkStruct underlying_of d' s' tag pos' = Ret (ok', p') ->
  ok = ok'.
Proof.
  intros Hperm H H'.
  destruct (checkStruct_sound _ _ _ _ _ _ _ H) as [(-> & _ & Hv) | (-> & path & Hf & _)];
    destruct (checkStruct_sound _ _ _ _ _ _ _ H') as [(-> & _ & Hv') | (-> & path' & Hf' & _)];
    try reflexivity; exfalso.
  - apply (verified_not_fails underlying_of tag s' path'); [|exact Hf'].
    apply verified_fields. rewrite <- Hperm. now apply verified_fields.
  - apply (verified_not_fails underlying_of tag s path); [|exact Hf].
    apply verified_fields. rewrite Hperm. now apply verified_fields.
Qed.

Lemma checkStruct_verdict_order_witness :
  Point ≡ₚ [mkVar "Y" true "" int; mkVar "X" true (kv "json" "x") int] /\
  checkStruct universe 1 Point jsonTag 800 = Ret (false, 800) /\
  checkStruct universe 3 [mkVar "Y" true "" int; mkVar "X" true (kv "json" "x") int]
              jsonTag 5 = Ret (false, 5) /\
  false = false.
Proof.
  assert (H : Point ≡ₚ [mkVar "Y" true "" int; mkVar "X" true (kv "json" "x") int])
    by apply perm_swap.
  split; [exact H|]. split; [reflexivity|]. split; [reflexivity|].
  exact (checkStruct_verdict_order universe jsonTag Point _ 1 3 800 5 false false 800 5
           H eq_refl eq_refl).
Defined.

(** X5: on every record, self-referential or not, a verdict that is given
    is right: when [checkStruct] returns true, every exported field of the
    record and of each record it reaches through tagged exported fields
    carries the key; when it returns false, some record so reached (or the
    record itself) has an exported field without the key. *)
Theorem checkStruct_verdict_sound underlying_of tag depth s pos ok p :
  checkStruct underlying_of depth s tag pos = Ret (ok, p) ->
  if ok then Compliant underlying_of tag s
  else exists s' f, reaches underlying_of tag s s' /\ f ∈ s' /\
                    Exported f = true /\ tagged (Tag f) tag = false.
Proof.
  intros H.
  destruct (checkStruct_sound _ _ _ _ _ _ _ H) as [(-> & _ & Hv) | (-> & path & Hf & _)].
  - now apply verified_Compliant.
  - now apply (fails_through_untagged underlying_of tag s path).
Qed.

Lemma checkStruct_verdict_sound_witness :
  checkStruct universe 3 Outer jsonTag 600 = Ret (false, 500) /\
  exists s' f, reaches universe jsonTag Outer s' /\ f ∈ s' /\
               Exported f = true /\ tagged (Tag f) jsonTag = false.
Proof.
  split; [reflexivity|].
  exact (checkStruct_verdict_sound universe jsonTag 3 Outer 600 false 500 eq_refl).
Defined.

(** * Further properties of the tag test *)

Lemma Split_head s sep piece pieces :
  Split s sep = piece :: pieces -> exists after, s = piece +:+ after.
Proof.
  revert piece pieces. induction s as [|c s IH]; intros piece pieces H; cbn in H.
  - injection H as <- _. now exists EmptyString.
  - destruct (Ascii.eqb c sep).
    + injection H as <- _. now exists (String c s).
    + destruct (Split s sep) as [|q qs] eqn:Hs.
      * injection H as <- _. exists s. reflexivity.
      * injection H as <- _. destruct (IH q qs eq_refl) as [after ->].
        now exists after.
Qed.

Lemma Split_not_nil s sep : Split s sep <> [].
Proof.
  destruct s as [|c s]; cbn; [discriminate|].
  destruct (Ascii.eqb c sep); [discriminate|]. now destruct (Split s sep).
Qed.

Lemma Split_tail s sep piece pieces later :
  Split s sep = piece :: pieces -> later ∈ pieces ->
  exists before after, s = before +:+ String sep (later +:+ after).
Proof.
  revert piece pieces. induction s as [|c s IH]; intros piece pieces H Hin; cbn in H.
  - injection H as _ <-. now apply elem_of_nil in Hin.
  - destruct (Ascii.eqb_spec c sep) as [-> | Hc].
    + injection H as _ <-. destruct (Split s sep) as [|q qs] eqn:Hs;
        [now apply elem_of_nil in Hin|].
      apply elem_of_cons in Hin as [-> | Hin].
      * destruct (Split_head s sep q qs Hs) as [after ->].
        now exists EmptyString, after.
      * destruct (IH q qs eq_refl Hin) as (before & after & ->).
        now exists (String sep before), after.
    + destruct (Split s sep) as [|q qs] eqn:Hs.
      * injection H as _ <-. now apply elem_of_nil in Hin.
      * injection H as _ <-. destruct (IH q qs eq_refl Hin) as (before & after & ->).
        now exists (String c before), after.
Qed.

Lemma append_cons c a b : String c a +:+ b = String c (a +:+ b).
Proof. reflexivity. Qed.

Lemma append_assoc a b c : (a +:+ b) +:+ c = a +:+ b +:+ c.
Proof. induction a as [|x a IH]; [reflexivity|]. now rewrite !append_cons, IH. Qed.

Lemma Split_join a b sep :
  Split (a +:+ String sep b) sep = Split a sep ++ Split b sep.
Proof.
  induction a as [|c a IH].
  - change (EmptyString +:+ String sep b) with (String sep b). cbn.
    now rewrite Ascii.eqb_refl.
  - rewrite append_cons. cbn [Split]. rewrite IH.
    destruct (Ascii.eqb c sep); [reflexivity|].
    destruct (Split a sep) as [|q qs] eqn:Ha; [now destruct (Split_not_nil a sep)|].
    reflexivity.
Qed.

Lemma HasPrefix_inv s prefix :
  HasPrefix s prefix = true -> exists rest, s = prefix +:+ rest.
Proof.
  revert s. induction prefix as [|p prefix IH]; intros s H.
  - now exists s.
  - destruct s as [|c s]; [discriminate|]. cbn in H.
    apply andb_prop in H as [Hc Hs]. apply Ascii.eqb_eq in Hc as ->.
    destruct (IH s Hs) as [rest ->]. now exists rest.
Qed.

(** The first piece of an annotation that starts with [tag + ":"] starts
    with it too, if the key has no space. *)
Lemma Split_head_key tag rest :
  Forall (fun c => c <> space) (list_ascii_of_string tag) ->
  exists piece pieces,
    Split (tag +:+ ":" +:+ rest) space = piece :: pieces /\
    HasPrefix piece (String.append tag ":") = true.
Proof.
  induction tag as [|c tag IH]; intros Hns.
  - change (EmptyString +:+ ":" +:+ rest) with (String ":" rest). cbn.
    destruct (Split rest space) as [|q qs] eqn:Hr;
      [now destruct (Split_not_nil rest space)|].
    exists (String ":" q), qs. split; [reflexivity|]. now destruct q.
  - cbn [list_ascii_of_string] in Hns. apply Forall_cons in Hns as [Hc Hns].
    destruct (IH Hns) as (q & qs & Hs & Hp).
    exists (String c q), qs. rewrite append_cons. cbn [Split]. rewrite Hs.
    destruct (Ascii.eqb_spec c space) as [-> | _]; [contradiction|].
    split; [reflexivity|]. rewrite append_cons. cbn [HasPrefix].
    now rewrite Ascii.eqb_refl, Hp.
Qed.

(** X6: an annotation joined from two by a space carries the key if and only
    if one of the two does; the empty annotation carries no key. *)
Theorem tagged_joined tag :
  tagged EmptyString tag = false /\
  forall a b, tagged (a +:+ " " +:+ b) tag = (tagged a tag || tagged b tag)%bool.
Proof.
  split.
  - rewrite tagged_existsb. cbn [Split existsb]. now rewrite HasPrefix_empty.
  - intros a b. rewrite !tagged_existsb.
    change (a +:+ " " +:+ b) with (a +:+ String space b).
    now rewrite Split_join, existsb_app.
Qed.

(** X7: for a key without a space, a field counts as tagged exactly when
    its annotation starts with the key and a colon, or has them right after
    a space. What follows the colon is not examined: no quoted value is
    asked for, and a key standing inside the quoted value of another pair,
    after a space, counts as well. *)
Theorem tagged_iff_key_at_piece_start fieldTag tag :
  Forall (fun c => c <> space) (list_ascii_of_string tag) ->
  tagged fieldTag tag = true <->
  (exists rest, fieldTag = tag +:+ ":" +:+ rest) \/
  (exists before rest, fieldTag = before +:+ " " +:+ tag +:+ ":" +:+ rest).
Proof.
  intros Hns. split.
  - rewrite tagged_existsb, existsb_exists. intros (piece & Hin & Hp).
    apply HasPrefix_inv in Hp as [r ->]. apply list_elem_of_In in Hin.
    destruct (Split fieldTag space) as [|q qs] eqn:Hs; [now apply elem_of_nil in Hin|].
    apply elem_of_cons in Hin as [<- | Hin].
    + left. destruct (Split_head _ _ _ _ Hs) as [after ->].
      exists (r +:+ after). now rewrite !append_assoc.
    + right. destruct (Split_tail _ _ _ _ _ Hs Hin) as (before & after & ->).
      exists before, (r +:+ after). now rewrite !append_assoc.
  - intros [[rest ->] | (before & rest & ->)].
    + destruct (Split_head_key tag rest Hns) as (q & qs & Hs & Hp).
      rewrite tagged_existsb, Hs. cbn. now rewrite Hp.
    + rewrite (proj2 (tagged_joined tag)).
      destruct (Split_head_key tag rest Hns) as (q & qs & Hs & Hp).
      rewrite (tagged_existsb (tag +:+ ":" +:+ rest)), Hs. cbn. rewrite Hp.
      now rewrite orb_true_r.
Qed.

Lemma tagged_iff_key_at_piece_start_witness :
  Forall (fun c => c <> space) (list_ascii_of_string jsonTag) /\
  (tagged (kv "yaml" "a json:b") jsonTag = true <->
   (exists rest, kv "yaml" "a json:b" = jsonTag +:+ ":" +:+ rest) \/
   (exists before rest,
      kv "yaml" "a json:b" = before +:+ " " +:+ jsonTag +:+ ":" +:+ rest)).
Proof.
  assert (H : Forall (fun c => c <> space) (list_ascii_of_string jsonTag)).
  { repeat (apply Forall_cons; split; [discriminate|]). apply Forall_nil_2. }
  split; [exact H | exact (tagged_iff_key_at_piece_start (kv "yaml" "a json:b") jsonTag H)].
Defined.

(** * Further properties of the type resolver *)

(** What [structAndPos] does, by the static type with one pointer removed. *)
Lemma structAndPos_by_type pass expr t :
  TypeOf pass expr = Some t ->
  structAndPos pass expr
  = match deref t with
    | Named obj =>
        match declared pass obj with
        | Struct s => Ret (Some (s, obj_pos obj))
        | _ => Ret None
        end
    | Struct s =>
        match operand expr with
        | Ident _ _ (Some objPos) => Ret (Some (s, objPos))
        | Ident _ _ None => Panic
        | CompositeLit litPos => Ret (Some (s, litPos))
        | _ => Ret None
        end
    | _ => Ret None
    end.
Proof. intros Ht. unfold structAndPos. rewrite Ht. destruct t; reflexivity. Qed.

(** X8: a value and its address resolve alike: for an expression [x] that
    is not itself a unary expression and whose type is not a pointer,
    [structAndPos] gives for [&x] (of type pointer to the type of [x]) the
    result it gives for [x], the same record at the same position. *)
Theorem structAndPos_address_of pass op x t :
  operand x = x ->
  TypeOf pass x = Some t ->
  (forall elem, t <> Pointer elem) ->
  TypeOf pass (UnaryExpr op x) = Some (Pointer t) ->
  structAndPos pass (UnaryExpr op x) = structAndPos pass x.
Proof.
  intros Hx Ht Hnp Hptr.
  rewrite (structAndPos_by_type pass _ _ Hptr), (structAndPos_by_type pass _ _ Ht).
  cbn [deref operand]. rewrite Hx.
  destruct t; try reflexivity. now destruct (Hnp t).
Qed.

Lemma structAndPos_address_of_witness :
  operand point = point /\
  TypeOf package point = Some (Named PointObj) /\
  (forall elem, Named PointObj <> Pointer elem) /\
  TypeOf package (UnaryExpr "&" point) = Some (Pointer (Named PointObj)) /\
  structAndPos package (UnaryExpr "&" point) = structAndPos package point.
Proof.
  assert (H : forall elem, Named PointObj <> Pointer elem) by discriminate.
  repeat (split; [first [reflexivity | exact H]|]).
  exact (structAndPos_address_of package "&" point (Named PointObj)
           eq_refl eq_refl H eq_refl).
Defined.

(** X9: [structAndPos] resolves nothing but records: when it returns a
    record, the static type of the expression, with one pointer removed, has
    that record as its underlying struct, and the position is the
    declaration of the type's name, or, for an anonymous struct, the
    declaration of the identifier or the place of the composite literal that
    the expression is under at most one unary operator. *)
Theorem structAndPos_resolved pass expr s pos :
  structAndPos pass expr = Ret (Some (s, pos)) ->
  exists t,
    TypeOf pass expr = Some t /\
    Underlying (declared pass) (deref t) = Struct s /\
    ((exists obj, deref t = Named obj /\ pos = obj_pos obj) \/
     (deref t = Struct s /\
      ((exists namePos name, operand expr = Ident namePos name (Some pos)) \/
       operand expr = CompositeLit pos))).
Proof.
  intros H. destruct (TypeOf pass expr) as [t|] eqn:Ht.
  - exists t. split; [reflexivity|].
    rewrite (structAndPos_by_type pass expr t Ht) in H.
    destruct (deref t) as [| | obj | fields | | |] eqn:D; try discriminate.
    + cbn [Underlying]. destruct (declared pass obj); try discriminate.
      injection H as <- <-. split; [reflexivity|]. left. now exists obj.
    + destruct (operand expr) as [np name [objPos|] | litPos | | |] eqn:O;
        try discriminate; injection H as <- <-; (split; [reflexivity|]); right;
        (split; [reflexivity|]); [left; now exists np, name | now right].
  - unfold structAndPos in H. rewrite Ht in H. discriminate.
Qed.

Lemma structAndPos_resolved_witness :
  structAndPos package (UnaryExpr "&" user) = Ret (Some (User, 10)) /\
  exists t,
    TypeOf package (UnaryExpr "&" user) = Some t /\
    Underlying (declared package) (deref t) = Struct User /\
    ((exists obj, deref t = Named obj /\ 10 = obj_pos obj) \/
     (deref t = Struct User /\
      ((exists namePos name, operand (UnaryExpr "&" user) = Ident namePos name (Some 10)) \/
       operand (UnaryExpr "&" user) = CompositeLit 10))).
Proof.
  split; [reflexivity|].
  exact (structAndPos_resolved package (UnaryExpr "&" user) User 10 eq_refl).
Defined.

(** X10: [structAndPos] panics in one case only: the static type, with one
    pointer removed, is an anonymous struct, and the expression, under at
    most one unary operator, is an identifier whose object is nil. *)
Theorem structAndPos_panics_iff pass expr :
  structAndPos pass expr = Panic <->
  exists t s namePos name,
    TypeOf pass expr = Some t /\ deref t = Struct s /\
    operand expr = Ident namePos name None.
Proof.
  split.
  - intros H. destruct (TypeOf pass expr) as [t|] eqn:Ht.
    + rewrite (structAndPos_by_type pass expr t Ht) in H.
      destruct (deref t) as [| | obj | fields | | |] eqn:D; try discriminate.
      * now destruct (declared pass obj).
      * destruct (operand expr) as [np name [objPos|] | | | |] eqn:O; try discriminate.
        now exists t, fields, np, name.
    + unfold structAndPos in H. rewrite Ht in H. discriminate.
  - intros (t & s & np & name & Ht & D & O).
    rewrite (structAndPos_by_type pass expr t Ht), D, O. reflexivity.
Qed.

Lemma structAndPos_panics_iff_witness :
  structAndPos (mkPass (fun _ => Some (Pointer (Struct Raw))) staticCallee universe)
               (UnaryExpr "&" (Ident 1 "v" None)) = Panic.
Proof.
  apply (proj2 (structAndPos_panics_iff
                  (mkPass (fun _ => Some (Pointer (Struct Raw))) staticCallee universe)
                  (UnaryExpr "&" (Ident 1 "v" None)))).
  exists (Pointer (Struct Raw)), Raw, 1, "v". repeat split.
Defined.

(** * Further properties of the run *)

Section RunFacts.

Variable pass : Pass.
Variable depth : nat.

(** The callback asks for a report without looking at the state, then
    emits it. *)
Lemma visit_factor st call :
  visit pass depth st call
  = match call_report pass depth call with
    | Ret None => Ret st
    | Ret (Some r) => Ret (emit st r)
    | Panic => Panic
    | Overflow => Overflow
    end.
Proof.
  unfold visit, call_report, emit.
  destruct (tagAndExpr pass call) as [[[tag expr]|]| |]; cbn; try reflexivity.
  destruct (structAndPos pass expr) as [[[s pos]|]| |]; cbn; try reflexivity.
  destruct (checkStruct (declared pass) depth s tag pos) as [[[] p]| |]; cbn;
    try reflexivity.
  now case_decide.
Qed.

Lemma call_report_failed call p tag :
  call_report pass depth call = Ret (Some (p, tag)) <->
  exists s pos, resolves_to pass tag s pos call /\
                checkStruct (declared pass) depth s tag pos = Ret (false, p).
Proof.
  unfold call_report, resolves_to. split.
  - destruct (tagAndExpr pass call) as [[[tag' expr]|]| |]; cbn; try discriminate.
    destruct (structAndPos pass expr) as [[[s pos]|]| |] eqn:Hr; cbn; try discriminate.
    destruct (checkStruct (declared pass) depth s tag' pos) as [[[] p']| |] eqn:Hc; cbn;
      try discriminate.
    intros H. injection H as <- <-. exists s, pos. split; [|exact Hc]. now exists expr.
  - intros (s & pos & (expr & -> & Hr) & Hc). cbn. rewrite Hr. cbn. now rewrite Hc.
Qed.

Lemma emit_reported st r x :
  x ∈ reported (emit st r) <-> x = r \/ x ∈ reported st.
Proof.
  unfold emit. case_decide as Hin; cbn.
  - split; [auto|]. now intros [-> | H].
  - rewrite elem_of_union, elem_of_singleton. tauto.
Qed.

Lemma emit_diagnostics st r :
  exists added, diagnostics (emit st r) = diagnostics st ++ added /\
                (length added <= 1)%nat.
Proof.
  unfold emit. case_decide; cbn.
  - exists []. rewrite app_nil_r. split; [reflexivity | cbn; lia].
  - exists [r]. split; [reflexivity | cbn; lia].
Qed.

Lemma emit_reported_once st r : reported_once st -> reported_once (emit st r).
Proof.
  intros [Hnodup Hsame]. unfold emit. case_decide as Hnew; [now split|].
  split; cbn.
  - apply NoDup_app. split; [exact Hnodup|]. split; [|apply NoDup_singleton].
    intros x Hx ->%list_elem_of_singleton. apply Hnew. now apply Hsame.
  - intros x. rewrite elem_of_union, elem_of_singleton, elem_of_app,
      list_elem_of_singleton, Hsame. tauto.
Qed.

Lemma emit_known st r : r ∈ reported st -> emit st r = st.
Proof. intros Hin. unfold emit. now case_decide. Qed.

Lemma preorder_cons st call calls :
  preorder pass depth st (call :: calls)
  = match call_report pass depth call with
    | Ret None => preorder pass depth st calls
    | Ret (Some r) => preorder pass depth (emit st r) calls
    | Panic => Panic
    | Overflow => Overflow
    end.
Proof.
  cbn [preorder]. rewrite visit_factor.
  now destruct (call_report pass depth call) as [[r|]| |].
Qed.

(** What a run adds to [reported]: the reports its calls ask for. *)
Lemma preorder_reported calls st st' :
  preorder pass depth st calls = Ret st' ->
  forall r, r ∈ reported st' <->
            r ∈ reported st \/
            exists call, call ∈ calls /\ call_report pass depth call = Ret (Some r).
Proof.
  revert st. induction calls as [|call calls IH]; intros st H r.
  - injection H as <-. split; [auto|]. intros [Hin | (call & Hin & _)]; [exact Hin|].
    now apply elem_of_nil in Hin.
  - rewrite preorder_cons in H.
    destruct (call_report pass depth call) as [[r0|]| |] eqn:Hc; try discriminate.
    + rewrite (IH _ H r), emit_reported. split.
      * intros [[-> | Hin] | (c & Hin & Hr)]; [right | now left | right].
        -- exists call. split; [apply list_elem_of_here | exact Hc].
        -- exists c. split; [now apply list_elem_of_further | exact Hr].
      * intros [Hin | (c & Hin & Hr)]; [left; now right|].
        apply elem_of_cons in Hin as [-> | Hin].
        -- left. left. congruence.
        -- right. now exists c.
    + rewrite (IH _ H r). split.
      * intros [Hin | (c & Hin & Hr)]; [now left | right].
        exists c. split; [now apply list_elem_of_further | exact Hr].
      * intros [Hin | (c & Hin & Hr)]; [now left|].
        apply elem_of_cons in Hin as [-> | Hin]; [congruence|].
        right. now exists c.
Qed.

Lemma preorder_keeps_reported_once calls st st' :
  reported_once st -> preorder pass depth st calls = Ret st' -> reported_once st'.
Proof.
  revert st. induction calls as [|call calls IH]; intros st Hst H.
  - now injection H as <-.
  - rewrite preorder_cons in H.
    destruct (call_report pass depth call) as [[r0|]| |]; try discriminate.
    + apply (IH (emit st r0)); [now apply emit_reported_once | exact H].
    + now apply (IH st).
Qed.

End RunFacts.

(** X12: a run only appends: the diagnostics it started with stay, in
    their order, at the front; at most one is added per call; nothing leaves
    [reported]. *)
Theorem preorder_only_appends pass depth calls st st' :
  preorder pass depth st calls = Ret st' ->
  exists added,
    diagnostics st' = diagnostics st ++ added /\
    (length added <= length calls)%nat /\
    reported st ⊆ reported st'.
Proof.
  revert st. induction calls as [|call calls IH]; intros st H.
  - injection H as <-. exists []. rewrite app_nil_r. split; [reflexivity|].
    split; [cbn; lia | set_solver].
  - rewrite preorder_cons in H.
    destruct (call_report pass depth call) as [[r|]| |]; try discriminate.
    + destruct (IH _ H) as (added & Hd & Hl & Hsub).
      destruct (emit_diagnostics st r) as (one & Hone & Hl1).
      exists (one ++ added). rewrite Hd, Hone, <- app_assoc. split; [reflexivity|].
      split; [rewrite length_app; cbn; lia|].
      intros x Hx. apply Hsub, emit_reported. now right.
    + destruct (IH _ H) as (added & Hd & Hl & Hsub).
      exists added. split; [exact Hd|]. split; [cbn; lia | exact Hsub].
Qed.

Lemma preorder_only_appends_witness :
  preorder package 1 start [json_ "Marshal" [point]; json_ "Marshal" [user]]
  = Ret {| reported := {[ (800, jsonTag) ]} ∪ ∅; diagnostics := [(800, jsonTag)] |} /\
  exists added,
    [(800, jsonTag)] = [] ++ added /\
    (length added <= 2)%nat /\
    (∅ : gset report) ⊆ {[ (800, jsonTag) ]} ∪ ∅.
Proof.
  assert (H : preorder package 1 start [json_ "Marshal" [point]; json_ "Marshal" [user]]
              = Ret {| reported := {[ (800, jsonTag) ]} ∪ ∅;
                       diagnostics := [(800, jsonTag)] |}).
  { rewrite !preorder_cons. reflexivity. }
  split; [exact H|].
  exact (preorder_only_appends package 1 _ start _ H).
Defined.

Lemma run_diagnostics_reports pass depth calls st r :
  run pass depth calls = Ret st ->
  r ∈ diagnostics st <->
  exists call, call ∈ calls /\ call_report pass depth call = Ret (Some r).
Proof.
  intros H.
  destruct (preorder_keeps_reported_once pass depth calls start st start_reported_once H)
    as [_ Hsame].
  rewrite <- Hsame, (preorder_reported pass depth calls start st H). split.
  - intros [Hin | Hcall]; [cbn in Hin; set_solver | exact Hcall].
  - now right.
Qed.


(** X13: the diagnostics of a run are exactly the reports of its failing
    calls: (position, key) is among them if and only if some call of the run
    resolves to a record on which [checkStruct] returns false, with that key
    and leaving that position. No other diagnostic is emitted, and none of
    these is missed. *)
Theorem run_diagnostics_iff pass depth calls st p tag :
  run pass depth calls = Ret st ->
  (p, tag) ∈ diagnostics st <->
  exists call s pos,
    call ∈ calls /\ resolves_to pass tag s pos call /\
    checkStruct (declared pass) depth s tag pos = Ret (false, p).
Proof.
  intros H. rewrite (run_diagnostics_reports pass depth calls st (p, tag) H). split.
  - intros (call & Hin & Hr).
    apply call_report_failed in Hr as (s & pos & Hres & Hc). now exists call, s, pos.
  - intros (call & s & pos & Hin & Hres & Hc). exists call. split; [exact Hin|].
    apply call_report_failed. now exists s, pos.
Qed.

Lemma run_diagnostics_iff_witness :
  run package 1 [json_ "Marshal" [user]; json_ "Marshal" [point]]
  = Ret {| reported := {[ (800, jsonTag) ]} ∪ ∅; diagnostics := [(800, jsonTag)] |} /\
  ((800, jsonTag) ∈ [(800, jsonTag)] <->
   exists call s pos,
     call ∈ [json_ "Marshal" [user]; json_ "Marshal" [point]] /\
     resolves_to package jsonTag s pos call /\
     checkStruct (declared package) 1 s jsonTag pos = Ret (false, 800)).
Proof.
  assert (H : run package 1 [json_ "Marshal" [user]; json_ "Marshal" [point]]
              = Ret {| reported := {[ (800, jsonTag) ]} ∪ ∅;
                       diagnostics := [(800, jsonTag)] |}).
  { unfold run. rewrite !preorder_cons. reflexivity. }
  split; [exact H|].
  exact (run_diagnostics_iff package 1 _ _ 800 jsonTag H).
Defined.



Section RunOutcomes.

Variable pass : Pass.
Variable depth : nat.

Lemma call_report_not_applicable call :
  tagAndExpr pass call = Ret None \/
  (exists tag expr, tagAndExpr pass call = Ret (Some (tag, expr)) /\
                    structAndPos pass expr = Ret None) ->
  call_report pass depth call = Ret None.
Proof.
  unfold call_report. intros [-> | (tag & expr & -> & Hr)]; [reflexivity|].
  cbn. now rewrite Hr.
Qed.

(** Whether the callback returns does not depend on the state. *)
Lemma visit_returns st call :
  returns (visit pass depth st call) <-> returns (call_report pass depth call).
Proof.
  rewrite visit_factor. unfold returns.
  destruct (call_report pass depth call) as [[r|]| |]; split; intros [a H];
    try discriminate; eauto.
Qed.

Lemma preorder_returns calls st :
  returns (preorder pass depth st calls) <->
  Forall (fun call => returns (call_report pass depth call)) calls.
Proof.
  revert st. induction calls as [|call calls IH]; intros st.
  - split; [intros _; apply Forall_nil_2 | intros _; now exists st].
  - rewrite preorder_cons, Forall_cons.
    destruct (call_report pass depth call) as [[r|]| |].
    + rewrite IH. split; [intros H; split; [now exists (Some r) | exact H] | tauto].
    + rewrite IH. split; [intros H; split; [now exists None | exact H] | tauto].
    + split; [intros [a H]; discriminate | intros [[a H] _]; discriminate].
    + split; [intros [a H]; discriminate | intros [[a H] _]; discriminate].
Qed.

(** Calls whose reports are known already leave the state as it is. *)
Lemma preorder_known calls st :
  Forall (fun call => exists o, call_report pass depth call = Ret o /\
                                forall r, o = Some r -> r ∈ reported st) calls ->
  preorder pass depth st calls = Ret st.
Proof.
  induction 1 as [|call calls (o & Ho & Hin) _ IH]; [reflexivity|].
  rewrite preorder_cons, Ho. destruct o as [r|]; [|exact IH].
  now rewrite (emit_known st r (Hin r eq_refl)).
Qed.

Lemma preorder_reports_known calls st st' :
  preorder pass depth st calls = Ret st' ->
  Forall (fun call => exists o, call_report pass depth call = Ret o /\
                                forall r, o = Some r -> r ∈ reported st') calls.
Proof.
  intros H. apply Forall_forall. intros call Hin.
  assert (Hret : returns (preorder pass depth st calls)) by now exists st'.
  apply preorder_returns in Hret. rewrite Forall_forall in Hret.
  destruct (Hret call Hin) as [o Ho]. exists o. split; [exact Ho|].
  intros r ->. apply (preorder_reported pass depth calls st st' H). right.
  now exists call.
Qed.

End RunOutcomes.

(** X15: a call that does not apply (its callee has no rule, or its
    argument does not resolve to a record) has no effect on the run of the
    calls around it: with or without it, the result is the same. *)
Theorem preorder_skips_other_calls pass depth st pre call post :
  tagAndExpr pass call = Ret None \/
  (exists tag expr, tagAndExpr pass call = Ret (Some (tag, expr)) /\
                    structAndPos pass expr = Ret None) ->
  preorder pass depth st (pre ++ call :: post) = preorder pass depth st (pre ++ post).
Proof.
  intros Hna. revert st. induction pre as [|c pre IH]; intros st; cbn [app].
  - now rewrite preorder_cons, (call_report_not_applicable pass depth call Hna).
  - rewrite !preorder_cons. destruct (call_report pass depth c) as [[r|]| |]; auto.
Qed.

Lemma preorder_skips_other_calls_witness :
  (tagAndExpr package (json_ "Valid" [data]) = Ret None \/
   (exists tag expr, tagAndExpr package (json_ "Valid" [data]) = Ret (Some (tag, expr)) /\
                     structAndPos package expr = Ret None)) /\
  preorder package 1 start
    ([json_ "Marshal" [point]] ++ json_ "Valid" [data] :: [json_ "Marshal" [user]])
  = preorder package 1 start ([json_ "Marshal" [point]] ++ [json_ "Marshal" [user]]).
Proof.
  assert (H : tagAndExpr package (json_ "Valid" [data]) = Ret None \/
              (exists tag expr,
                 tagAndExpr package (json_ "Valid" [data]) = Ret (Some (tag, expr)) /\
                 structAndPos package expr = Ret None)) by (left; reflexivity).
  split; [exact H|].
  exact (preorder_skips_other_calls package 1 start [json_ "Marshal" [point]]
           (json_ "Valid" [data]) [json_ "Marshal" [user]] H).
Defined.

(** X16: a run is idempotent: the calls of a finished run, visited once
    more from the state it ended in, leave that state as it is, so running
    the calls twice in a row gives what running them once gives. *)
Theorem run_twice pass depth calls st :
  run pass depth calls = Ret st ->
  preorder pass depth st calls = Ret st /\
  run pass depth (calls ++ calls) = Ret st.
Proof.
  intros H.
  assert (Hagain : preorder pass depth st calls = Ret st).
  { apply preorder_known. now apply (preorder_reports_known pass depth calls start). }
  split; [exact Hagain|]. unfold run in *.
  revert H Hagain. generalize start as st0. intros st0 H Hagain.
  assert (Happ : forall calls1 st1,
             preorder pass depth st1 (calls1 ++ calls)
             = match preorder pass depth st1 calls1 with
               | Ret st2 => preorder pass depth st2 calls
               | Panic => Panic
               | Overflow => Overflow
               end).
  { induction calls1 as [|c calls1 IH]; intros st1; [reflexivity|].
    cbn [app]. rewrite !preorder_cons.
    destruct (call_report pass depth c) as [[r|]| |]; auto. }
  now rewrite Happ, H.
Qed.

Lemma run_twice_witness :
  run package 1 [json_ "Marshal" [point]; json_ "Marshal" [user]]
  = Ret {| reported := {[ (800, jsonTag) ]} ∪ ∅; diagnostics := [(800, jsonTag)] |} /\
  run package 1 ([json_ "Marshal" [point]; json_ "Marshal" [user]]
                 ++ [json_ "Marshal" [point]; json_ "Marshal" [user]])
  = Ret {| reported := {[ (800, jsonTag) ]} ∪ ∅; diagnostics := [(800, jsonTag)] |}.
Proof.
  assert (H : run package 1 [json_ "Marshal" [point]; json_ "Marshal" [user]]
              = Ret {| reported := {[ (800, jsonTag) ]} ∪ ∅;
                       diagnostics := [(800, jsonTag)] |}).
  { unfold run. rewrite !preorder_cons. reflexivity. }
  split; [exact H | exact (proj2 (run_twice package 1 _ _ H))].
Defined.

(** X17: a run returns if and only if the callback returns on each of its
    calls taken alone: one call on which it panics or overflows, wherever
    it stands, keeps the whole run from returning, and nothing else does. *)
Theorem run_returns_iff pass depth calls :
  returns (run pass depth calls) <->
  forall call, call ∈ calls -> returns (visit pass depth start call).
Proof.
  unfold run. rewrite preorder_returns, Forall_forall.
  split; intros H call Hin.
  - apply (visit_returns pass depth start call). now apply H.
  - apply (visit_returns pass depth start call). now apply H.
Qed.

Section Panics.

Variable pass : Pass.
Variable depth : nat.






End Panics.



(** X19: the order of the calls decides the order of the diagnostics and
    nothing else: a run over a permutation of the calls returns as well,
    with the same set [reported] and the same diagnostics up to their
    order. *)
Theorem run_permutation pass depth calls calls' st :
  calls ≡ₚ calls' ->
  run pass depth calls = Ret st ->
  exists st',
    run pass depth calls' = Ret st' /\
    reported st' = reported st /\
    diagnostics st' ≡ₚ diagnostics st.
Proof.
  intros Hperm H. unfold run in *.
  assert (Hret : returns (preorder pass depth start calls')).
  { apply preorder_returns. rewrite <- Hperm.
    apply (preorder_returns pass depth calls start). now exists st. }
  destruct Hret as [st' H']. exists st'. split; [exact H'|].
  assert (Hsame : forall r, r ∈ reported st' <-> r ∈ reported st).
  { intros r. rewrite (preorder_reported pass depth calls' start st' H' r),
      (preorder_reported pass depth calls start st H r).
    split; intros [Hin | (c & Hin & Hr)]; auto; right; exists c;
      (split; [|exact Hr]); [now rewrite Hperm | now rewrite <- Hperm]. }
  split; [apply set_eq; exact Hsame|].
  destruct (preorder_keeps_reported_once pass depth calls start st start_reported_once H)
    as [Hnd Hd].
  destruct (preorder_keeps_reported_once pass depth calls' start st' start_reported_once H')
    as [Hnd' Hd'].
  apply NoDup_Permutation; [exact Hnd' | exact Hnd|].
  intros r. now rewrite <- Hd', <- Hd.
Qed.

Lemma run_permutation_witness :
  [json_ "Marshal" [point]; json_ "Marshal" [user]]
  ≡ₚ [json_ "Marshal" [user]; json_ "Marshal" [point]] /\
  run package 1 [json_ "Marshal" [point]; json_ "Marshal" [user]]
  = Ret {| reported := {[ (800, jsonTag) ]} ∪ ∅; diagnostics := [(800, jsonTag)] |} /\
  exists st',
    run package 1 [json_ "Marshal" [user]; json_ "Marshal" [point]] = Ret st' /\
    reported st' = {[ (800, jsonTag) ]} ∪ ∅ /\
    diagnostics st' ≡ₚ [(800, jsonTag)].
Proof.
  assert (Hperm : [json_ "Marshal" [point]; json_ "Marshal" [user]]
                  ≡ₚ [json_ "Marshal" [user]; json_ "Marshal" [point]])
    by apply perm_swap.
  assert (H : run package 1 [json_ "Marshal" [point]; json_ "Marshal" [user]]
              = Ret {| reported := {[ (800, jsonTag) ]} ∪ ∅;
                       diagnostics := [(800, jsonTag)] |}).
  { unfold run. rewrite !preorder_cons. reflexivity. }
  split; [exact Hperm|]. split; [exact H|].
  exact (run_permutation package 1 _ _ _ Hperm H).
Defined.

(** * Reporting once, over whole runs *)

(** C3, as stated, fails in its last part: one record with an untagged
    field, [Inner], reached from two call sites, [json.Marshal(mid)] and
    [json.Marshal(outer)], gets two diagnostics, because the verifier leaves
    the declaration of [Inner] for the first and that of [Mid] for the
    second, and [reported] is keyed by the position left. Two composite
    literals of one anonymous struct get two diagnostics as well, one at
    each literal. *)
Lemma C3_one_record_two_diagnostics :
  (exists st,
     run package 3 [json_ "Marshal" [mid]; json_ "Marshal" [outer]] = Ret st /\
     diagnostics st = [(obj_pos InnerObj, jsonTag); (obj_pos MidObj, jsonTag)]) /\
  fails_through universe jsonTag Mid [Named InnerObj] /\
  fails_through universe jsonTag Outer [Named MidObj; Named InnerObj] /\
  (exists st,
     run package 1 [json_ "Marshal" [CompositeLit 2000];
                    json_ "Marshal" [CompositeLit 2100]] = Ret st /\
     diagnostics st = [(2000, jsonTag); (2100, jsonTag)]).
Proof.
  split; [|split; [exact Mid_fails | split; [exact Outer_fails|]]].
  - eexists. split; [unfold run; rewrite !preorder_cons; reflexivity | reflexivity].
  - eexists. split; [unfold run; rewrite !preorder_cons; reflexivity | reflexivity].
Qed.

(** C3, amended: in the state a run ends with, no report (position left by
    the verifier, key) was emitted twice, and the reports emitted are the
    members of [reported]; a failed verification emits its report only if it
    is not in [reported], and then adds it. Every call of the run whose
    verification fails has its report among the diagnostics exactly once,
    however many calls fail with the same position and key, and every
    diagnostic is the report of such a call. So call sites that fail with
    the same final position (one named record passed to several calls) get
    one diagnostic in total, while one non-compliant record reached with
    different final positions gets one diagnostic for each. *)
Theorem C3_reported_at_most_once pass depth calls :
  (forall st, run pass depth calls = Ret st ->
     NoDup (diagnostics st) /\
     (forall r, r ∈ reported st <-> r ∈ diagnostics st) /\
     (forall call tag s pos p,
        call ∈ calls ->
        resolves_to pass tag s pos call ->
        checkStruct (declared pass) depth s tag pos = Ret (false, p) ->
        exists before after,
          diagnostics st = before ++ (p, tag) :: after /\
          ((p, tag) ∉ before) /\ ((p, tag) ∉ after)) /\
     (forall p tag,
        (p, tag) ∈ diagnostics st ->
        exists call s pos,
          call ∈ calls /\ resolves_to pass tag s pos call /\
          checkStruct (declared pass) depth s tag pos = Ret (false, p))) /\
  (forall st call tag s pos p,
     resolves_to pass tag s pos call ->
     checkStruct (declared pass) depth s tag pos = Ret (false, p) ->
     visit pass depth st call
     = if decide ((p, tag) ∈ reported st) then Ret st
       else Ret {| reported := {[ (p, tag) ]} ∪ reported st;
                   diagnostics := diagnostics st ++ [(p, tag)] |}).
Proof.
  split; [|intros st call tag s pos p; apply visit_failed].
  intros st H.
  destruct (preorder_keeps_reported_once pass depth calls start st start_reported_once H)
    as [Hnodup Hsame].
  split; [exact Hnodup|]. split; [exact Hsame|]. split.
  - intros call tag s pos p Hin Hres Hc.
    assert (Hr : (p, tag) ∈ diagnostics st).
    { apply (run_diagnostics_reports pass depth calls st (p, tag) H).
      exists call. split; [exact Hin|]. apply call_report_failed. now exists s, pos. }
    apply list_elem_of_split in Hr as (before & after & Hd).
    exists before, after. split; [exact Hd|].
    rewrite Hd in Hnodup. apply NoDup_app in Hnodup as (_ & Hapart & Hrest).
    apply NoDup_cons in Hrest as [Hafter _]. split; [|exact Hafter].
    intros Hb. apply (Hapart _ Hb). apply list_elem_of_here.
  - intros p tag Hin.
    apply (run_diagnostics_reports pass depth calls st (p, tag) H) in Hin
      as (call & Hin & Hr).
    apply call_report_failed in Hr as (s & pos & Hres & Hc). now exists call, s, pos.
Qed.

Lemma C3_reported_at_most_once_witness :
  run package 1 [ json_ "Marshal" [user]; json_ "Marshal" [point];
                  json_ "Unmarshal" [data; UnaryExpr "&" point] ]
  = Ret {| reported := {[ (obj_pos PointObj, jsonTag) ]} ∪ ∅;
           diagnostics := [(obj_pos PointObj, jsonTag)] |} /\
  json_ "Unmarshal" [data; UnaryExpr "&" point]
  ∈ [ json_ "Marshal" [user]; json_ "Marshal" [point];
      json_ "Unmarshal" [data; UnaryExpr "&" point] ] /\
  resolves_to package jsonTag Point (obj_pos PointObj)
              (json_ "Unmarshal" [data; UnaryExpr "&" point]) /\
  checkStruct (declared package) 1 Point jsonTag (obj_pos PointObj)
  = Ret (false, obj_pos PointObj) /\
  exists before after,
    [(obj_pos PointObj, jsonTag)] = before ++ (obj_pos PointObj, jsonTag) :: after /\
    ((obj_pos PointObj, jsonTag) ∉ before) /\ ((obj_pos PointObj, jsonTag) ∉ after).
Proof.
  assert (H : run package 1 [ json_ "Marshal" [user]; json_ "Marshal" [point];
                              json_ "Unmarshal" [data; UnaryExpr "&" point] ]
              = Ret {| reported := {[ (obj_pos PointObj, jsonTag) ]} ∪ ∅;
                       diagnostics := [(obj_pos PointObj, jsonTag)] |}).
  { unfold run. rewrite !preorder_cons. reflexivity. }
  assert (Hin : json_ "Unmarshal" [data; UnaryExpr "&" point]
                ∈ [ json_ "Marshal" [user]; json_ "Marshal" [point];
                    json_ "Unmarshal" [data; UnaryExpr "&" point] ]).
  { apply list_elem_of_further, list_elem_of_further, list_elem_of_here. }
  assert (Hres : resolves_to package jsonTag Point (obj_pos PointObj)
                   (json_ "Unmarshal" [data; UnaryExpr "&" point])).
  { exists (UnaryExpr "&" point). split; reflexivity. }
  split; [exact H|]. split; [exact Hin|]. split; [exact Hres|]. split; [reflexivity|].
  exact (proj1 (proj2 (proj2 (proj1 (C3_reported_at_most_once package 1 _) _ H)))
           _ jsonTag Point (obj_pos PointObj) (obj_pos PointObj) Hin Hres eq_refl).
Defined.
